(** * The repository service of the API server (server/repository/repository.go)

    A shallow embedding of the gRPC handlers [List], [ListApps], [Create],
    [Get], [Update] and [Delete] of the repository service, of the two
    directory walks [listHelmApps] and [listKsonnetApps], and of [redact].

    The handlers talk to three collaborators through interfaces: the
    repository store ([db.ArgoDB]), the repository service client
    ([reposerver.Clientset]) and the RBAC enforcer.  The interfaces are kept
    as records of methods, the store being threaded explicitly; every call
    that leaves the handler is also appended to a log, so that statements
    such as "the store is not written" can be read off the log. *)

From Stdlib Require Import ZArith Strings.String Lists.List Strings.Byte.
From stdpp Require Import base tactics option list strings gmap.

Local Open Scope string_scope.
Local Open Scope list_scope.

(** ** gRPC status codes and errors (google.golang.org/grpc) *)

Module codes.

Inductive Code :=
| OK | Canceled | Unknown | InvalidArgument | DeadlineExceeded | NotFound
| AlreadyExists | PermissionDenied | ResourceExhausted | FailedPrecondition
| Aborted | OutOfRange | Unimplemented | Internal | Unavailable | DataLoss
| Unauthenticated.

#[global] Instance Code_eq_dec : EqDecision Code.
Proof. solve_decision. Defined.

(** [Code.String()] *)
Definition String (c : Code) : string :=
  match c with
  | OK => "OK" | Canceled => "Canceled" | Unknown => "Unknown"
  | InvalidArgument => "InvalidArgument"
  | DeadlineExceeded => "DeadlineExceeded" | NotFound => "NotFound"
  | AlreadyExists => "AlreadyExists"
  | PermissionDenied => "PermissionDenied"
  | ResourceExhausted => "ResourceExhausted"
  | FailedPrecondition => "FailedPrecondition" | Aborted => "Aborted"
  | OutOfRange => "OutOfRange" | Unimplemented => "Unimplemented"
  | Internal => "Internal" | Unavailable => "Unavailable"
  | DataLoss => "DataLoss" | Unauthenticated => "Unauthenticated"
  end.

End codes.

(** A Go [error] value that is not nil: either a gRPC status error, which
    carries a code and a description, or any other error, of which only the
    text is observable.  The nil error is [None] of [option error]. *)
Inductive error :=
| StatusError (c : codes.Code) (desc : string)
| PlainError (text : string).

#[global] Instance error_eq_dec : EqDecision error.
Proof. solve_decision. Defined.

(** [err.Error()], which is also what the verb [%v] prints for an error. *)
Definition Error (e : error) : string :=
  match e with
  | StatusError c desc =>
      "rpc error: code = " +:+ codes.String c +:+ " desc = " +:+ desc
  | PlainError text => text
  end.

Module status.

(** [status.Errorf(c, format, a...)], the message being already formatted:
    the result is nil when the code is [OK]. *)
Definition Errorf (c : codes.Code) (msg : string) : option error :=
  if decide (c = codes.OK) then None else Some (StatusError c msg).

(** [status.Convert(err).Code()] *)
Definition Convert_Code (err : option error) : codes.Code :=
  match err with
  | None => codes.OK
  | Some (StatusError c _) => c
  | Some (PlainError _) => codes.Unknown
  end.

End status.

(** Modelled from the spec: [grpc.ErrPermissionDenied] is declared in
    util/grpc, which is not among the sources; the spec calls it the
    permission-denied error that a denied capability check yields. *)
Definition ErrPermissionDenied : option error :=
  status.Errorf codes.PermissionDenied "permission denied".

(** ** Data (pkg/apis/application/v1alpha1 and the service's messages)

    The struct declarations are not among the sources; the records list the
    fields the service reads or writes.  Pointers to structs are [option]s,
    nil being [None]. *)

Module ConnectionState.
Record t := mk { Status : string; Message : string; ModifiedAt : option Z }.
#[global] Instance eq_dec : EqDecision t.
Proof. solve_decision. Defined.
End ConnectionState.

Definition ConnectionStatusSuccessful : string := "Successful".

Record Repository := {
  Repo : string;
  Username : string;
  Password : string;
  SSHPrivateKey : string;
  ConnectionState : ConnectionState.t;
}.

#[global] Instance Repository_eq_dec : EqDecision Repository.
Proof. solve_decision. Defined.

Record RepositoryList := { Items : list Repository }.

Record RepoQuery := { RepoQuery_Repo : string }.
Record RepoAppsQuery := { RepoAppsQuery_Repo : string; Revision : string }.
Record RepoCreateRequest :=
  { RepoCreateRequest_Repo : option Repository; Upsert : bool }.
Record RepoUpdateRequest := { RepoUpdateRequest_Repo : option Repository }.
Record RepoResponse := { }.

Record HelmAppSpec := {
  HelmAppSpec_Name : string;
  HelmAppSpec_Path : string;
  ValueFiles : list string;
}.

(** [Environments] is a Go map from environment names to environments; the
    environment type [E] is left open, the service reading only the size of
    the map. *)
Record KsonnetAppSpec (E : Type) := {
  KsonnetAppSpec_Name : string;
  KsonnetAppSpec_Path : string;
  Environments : gmap string E;
}.
Arguments KsonnetAppSpec_Name {E} _.
Arguments KsonnetAppSpec_Path {E} _.
Arguments Environments {E} _.

Record RepoAppsResponse (E : Type) := {
  KsonnetApps : list (KsonnetAppSpec E);
  HelmApps : list HelmAppSpec;
}.
Arguments KsonnetApps {E} _.
Arguments HelmApps {E} _.

(** Messages of the repository service (reposerver/repository). *)
Record ListDirRequest := {
  ListDirRequest_Repo : option Repository;
  ListDirRequest_Revision : string;
  ListDirRequest_Path : string;
}.
Record FileList := { FileList_Items : list string }.
Record GetFileRequest := {
  GetFileRequest_Repo : option Repository;
  GetFileRequest_Revision : string;
  GetFileRequest_Path : string;
}.
Record GetFileResponse := { Data : list byte }.


(** ** Calls that leave a handler

    One constructor per method of a collaborator the service calls; the
    argument is what the call was made with. *)
Inductive Call :=
| CallListRepositories
| CallGetRepository (repo : string)
| CallCreateRepository (r : Repository)
| CallUpdateRepository (r : Repository)
| CallDeleteRepository (repo : string)
| CallTestRepo (url username password sshPrivateKey : string)
| CallNewRepositoryClient
| CallClose
| CallListDir (req : ListDirRequest)
| CallGetFile (req : GetFileRequest).

(** The calls that may change the store. *)
Definition writes_store (c : Call) : bool :=
  match c with
  | CallCreateRepository _ | CallUpdateRepository _
  | CallDeleteRepository _ => true
  | _ => false
  end.


(** The revision a call to the repository service is made at. *)
Definition call_revision (c : Call) : option string :=
  match c with
  | CallListDir req => Some (ListDirRequest_Revision req)
  | CallGetFile req => Some (GetFileRequest_Revision req)
  | _ => None
  end.

(** ** The handler monad

    A handler runs from a store [St]; it either returns a value or panics
    (a nil pointer is dereferenced), and in both cases leaves a store and
    the log of the calls it made, oldest first. *)
Inductive outcome (St A : Type) :=
| Returned (a : A) (st : St) (log : list Call)
| Panicked (st : St) (log : list Call).
Arguments Returned {St A} _ _ _.
Arguments Panicked {St A} _ _.

Definition M (St A : Type) : Type := St -> outcome St A.

#[global] Instance M_ret {St} : MRet (M St) :=
  fun A a st => Returned a st [].

#[global] Instance M_bind {St} : MBind (M St) :=
  fun A B f m st =>
    match m st with
    | Returned a st1 log1 =>
        match f a st1 with
        | Returned b st2 log2 => Returned b st2 (log1 ++ log2)
        | Panicked st2 log2 => Panicked st2 (log1 ++ log2)
        end
    | Panicked st1 log1 => Panicked st1 log1
    end.

(** Dereferencing a pointer: a nil pointer panics. *)
Definition deref {St A} (p : option A) : M St A :=
  fun st => match p with
            | Some a => Returned a st []
            | None => Panicked st []
            end.

(** A call to the store: it answers and leaves a new store. *)
Definition call_db {St A} (c : Call) (f : St -> A * St) : M St A :=
  fun st => let '(a, st') := f st in Returned a st' [c].

(** A call to a collaborator that holds none of the store. *)
Definition call_out {St A} (c : Call) (a : A) : M St A :=
  fun st => Returned a st [c].

(** [defer f(); body]: the deferred call runs when the body returns and
    when it panics. *)
Definition defer {St A} (c : Call) (body : M St A) : M St A :=
  fun st => match body st with
            | Returned a st' log => Returned a st' (log ++ [c])
            | Panicked st' log => Panicked st' (log ++ [c])
            end.

(** The log an outcome leaves. *)
Definition call_log {St A} (o : outcome St A) : list Call :=
  match o with Returned _ _ log | Panicked _ log => log end.

(** ** What the service imports

    Types and functions of other packages, none of which is among the
    sources: the claims value a request context carries, the ksonnet
    environment message, [git.NormalizeGitURL], [git.TestRepo] and
    [yaml.Unmarshal] at the two types it is used at.  [yaml.Unmarshal]
    writes into the struct it is given, so it takes the struct as it is
    before the call and returns it as it is after. *)
Class External := {
  Claims : Type;
  KsonnetEnvironment : Type;
  git_NormalizeGitURL : string -> string;
  git_TestRepo : string -> string -> string -> string -> option error;
  yaml_Unmarshal_HelmAppSpec :
    list byte -> HelmAppSpec -> HelmAppSpec * option error;
  yaml_Unmarshal_KsonnetAppSpec :
    list byte -> KsonnetAppSpec KsonnetEnvironment ->
    KsonnetAppSpec KsonnetEnvironment * option error;
}.

(** [context.Context], of which the service reads [ctx.Value("claims")]. *)
Record Context `{External} := { Value : string -> Claims }.

(** [db.ArgoDB], the methods on repositories.  A method answers with fresh
    objects: what a handler later writes into an answer does not reach the
    store, and the store does not write into the repository it is given. *)
Record ArgoDB `{External} (St : Type) := {
  ListRepositories : Context -> St ->
    (option RepositoryList * option error) * St;
  GetRepository : Context -> string -> St ->
    (option Repository * option error) * St;
  CreateRepository : Context -> Repository -> St ->
    (option Repository * option error) * St;
  UpdateRepository : Context -> Repository -> St ->
    (option Repository * option error) * St;
  DeleteRepository : Context -> string -> St -> option error * St;
}.
Arguments ListRepositories {_ St} _ _ _.
Arguments GetRepository {_ St} _ _ _ _.
Arguments CreateRepository {_ St} _ _ _ _.
Arguments UpdateRepository {_ St} _ _ _ _.
Arguments DeleteRepository {_ St} _ _ _ _.

(** [repository.RepositoryServiceClient], the two methods the service
    calls. *)
Record RepositoryServiceClient `{External} := {
  ListDir : Context -> ListDirRequest -> option FileList * option error;
  GetFile : Context -> GetFileRequest ->
    option GetFileResponse * option error;
}.

(** [reposerver.Clientset]; the connection is only ever closed, which the
    log records as [CallClose]. *)
Record Clientset `{External} := {
  NewRepositoryClient : option RepositoryServiceClient * option error;
}.

(** [rbac.Enforcer] *)
Record Enforcer `{External} := {
  EnforceClaims : Claims -> list string -> bool;
}.

Record Server `{External} (St : Type) := {
  db : ArgoDB St;
  repoClientset : Clientset;
  enf : Enforcer;
}.
Arguments db {_ St} _.
Arguments repoClientset {_ St} _.
Arguments enf {_ St} _.


(** ** The handlers *)

Section Handlers.
Context `{External} {St : Type}.

(** [redact]: a nil repository stays nil; otherwise the two secrets are
    blanked in place and the same pointer is returned. *)
Definition redact (repo : option Repository) : option Repository :=
  match repo with
  | None => None
  | Some repo =>
      Some {| Repo := Repo repo;
              Username := Username repo;
              Password := "";
              SSHPrivateKey := "";
              ConnectionState := ConnectionState repo |}
  end.

(** [r.ConnectionState = c] *)
Definition set_ConnectionState (r : Repository) (c : ConnectionState.t)
  : Repository :=
  {| Repo := Repo r;
     Username := Username r;
     Password := Password r;
     SSHPrivateKey := SSHPrivateKey r;
     ConnectionState := c |}.

(** The loop of [List] over [repoList.Items]; [newItems] is the slice built
    so far.  [repo] is the loop's own copy of the item, so [&repo] is never
    nil. *)
Fixpoint List_range (s : Server St) (ctx : Context)
    (items newItems : list Repository) : M St (list Repository) :=
  match items with
  | [] => mret newItems
  | repo :: items =>
      if EnforceClaims (enf s) (Value ctx "claims")
           ["repositories"; "get"; Repo repo]
      then r ← deref (redact (Some repo));
           List_range s ctx items (newItems ++ [r])
      else List_range s ctx items newItems
  end.

(** [Server.List] *)
Definition List (s : Server St) (ctx : Context) (q : RepoQuery)
  : M St (option RepositoryList * option error) :=
  '(repoList, err) ←
    call_db CallListRepositories (ListRepositories (db s) ctx);
  match repoList with
  | Some l =>
      newItems ← List_range s ctx (Items l) [];
      mret (Some {| Items := newItems |}, err)
  | None => mret (None, err)
  end.

(** The loop of [listHelmApps] over [getRes.Items]. *)
Fixpoint listHelmApps_range (repoClient : RepositoryServiceClient)
    (ctx : Context) (repo : option Repository) (revision : string)
    (paths : list string) (helmApps : list HelmAppSpec)
  : M St (list HelmAppSpec * option error) :=
  match paths with
  | [] => mret (helmApps, None)
  | path :: paths =>
      let req := {| GetFileRequest_Repo := repo;
                    GetFileRequest_Revision := revision;
                    GetFileRequest_Path := path |} in
      '(getFileRes, err) ←
        call_out (CallGetFile req) (GetFile repoClient ctx req);
      match err with
      | Some e => mret ([], Some e)
      | None =>
          let appSpec := {| HelmAppSpec_Name := "";
                            HelmAppSpec_Path := path;
                            ValueFiles := [] |} in
          res ← deref getFileRes;
          let '(appSpec, err) :=
            yaml_Unmarshal_HelmAppSpec (Data res) appSpec in
          let helmApps :=
            if bool_decide (err = None)
               && negb (bool_decide (HelmAppSpec_Name appSpec = ""))
            then helmApps ++ [appSpec]
            else helmApps in
          listHelmApps_range repoClient ctx repo revision paths helmApps
      end
  end.

(** [Server.listHelmApps]; a nil slice is the empty list. *)
Definition listHelmApps (s : Server St) (ctx : Context)
    (repo : option Repository) (revision : string)
    (repoClient : option RepositoryServiceClient)
  : M St (list HelmAppSpec * option error) :=
  let req := {| ListDirRequest_Repo := repo;
                ListDirRequest_Revision := revision;
                ListDirRequest_Path := "*Chart.yaml" |} in
  client ← deref repoClient;
  '(getRes, err) ← call_out (CallListDir req) (ListDir client ctx req);
  match err with
  | Some e => mret ([], Some e)
  | None =>
      res ← deref getRes;
      listHelmApps_range client ctx repo revision (FileList_Items res) []
  end.

(** The loop of [listKsonnetApps] over [getRes.Items]. *)
Fixpoint listKsonnetApps_range (repoClient : RepositoryServiceClient)
    (ctx : Context) (repo : option Repository) (revision : string)
    (paths : list string)
    (ksonnetApps : list (KsonnetAppSpec KsonnetEnvironment))
  : M St (list (KsonnetAppSpec KsonnetEnvironment) * option error) :=
  match paths with
  | [] => mret (ksonnetApps, None)
  | path :: paths =>
      let req := {| GetFileRequest_Repo := repo;
                    GetFileRequest_Revision := revision;
                    GetFileRequest_Path := path |} in
      '(getFileRes, err) ←
        call_out (CallGetFile req) (GetFile repoClient ctx req);
      match err with
      | Some e => mret ([], Some e)
      | None =>
          let appSpec := {| KsonnetAppSpec_Name := "";
                            KsonnetAppSpec_Path := path;
                            Environments := ∅ |} in
          res ← deref getFileRes;
          let '(appSpec, err) :=
            yaml_Unmarshal_KsonnetAppSpec (Data res) appSpec in
          let ksonnetApps :=
            if bool_decide (err = None)
               && negb (bool_decide (KsonnetAppSpec_Name appSpec = ""))
               && bool_decide (0 < size (Environments appSpec))%nat
            then ksonnetApps ++ [appSpec]
            else ksonnetApps in
          listKsonnetApps_range repoClient ctx repo revision paths
            ksonnetApps
      end
  end.

(** [Server.listKsonnetApps] *)
Definition listKsonnetApps (s : Server St) (ctx : Context)
    (repo : option Repository) (revision : string)
    (repoClient : option RepositoryServiceClient)
  : M St (list (KsonnetAppSpec KsonnetEnvironment) * option error) :=
  let req := {| ListDirRequest_Repo := repo;
                ListDirRequest_Revision := revision;
                ListDirRequest_Path := "*app.yaml" |} in
  client ← deref repoClient;
  '(getRes, err) ← call_out (CallListDir req) (ListDir client ctx req);
  match err with
  | Some e => mret ([], Some e)
  | None =>
      res ← deref getRes;
      listKsonnetApps_range client ctx repo revision (FileList_Items res) []
  end.

(** [Server.ListApps] *)
Definition ListApps (s : Server St) (ctx : Context) (q : RepoAppsQuery)
  : M St (option (RepoAppsResponse KsonnetEnvironment) * option error) :=
  if negb (EnforceClaims (enf s) (Value ctx "claims")
             ["repositories/apps"; "get"; RepoAppsQuery_Repo q])
  then mret (None, ErrPermissionDenied)
  else
    '(repo, err) ←
      call_db (CallGetRepository (RepoAppsQuery_Repo q))
        (GetRepository (db s) ctx (RepoAppsQuery_Repo q));
    match err with
    | Some e => mret (None, Some e)
    | None =>
        '(repoClient, err) ←
          call_out CallNewRepositoryClient
            (NewRepositoryClient (repoClientset s));
        match err with
        | Some e => mret (None, Some e)
        | None =>
            defer CallClose (
              let revision :=
                if decide (Revision q = "") then "HEAD" else Revision q in
              '(ksonnetApps, err) ←
                listKsonnetApps s ctx repo revision repoClient;
              match err with
              | Some e => mret (None, Some e)
              | None =>
                  '(helmApps, err) ←
                    listHelmApps s ctx repo revision repoClient;
                  match err with
                  | Some e => mret (None, Some e)
                  | None =>
                      mret (Some {| KsonnetApps := ksonnetApps;
                                    HelmApps := helmApps |}, None)
                  end
              end)
        end
    end.

(** [Server.Update] *)
Definition Update (s : Server St) (ctx : Context) (q : RepoUpdateRequest)
  : M St (option Repository * option error) :=
  r ← deref (RepoUpdateRequest_Repo q);
  if negb (EnforceClaims (enf s) (Value ctx "claims")
             ["repositories"; "update"; Repo r])
  then mret (None, ErrPermissionDenied)
  else
    '(repo, err) ←
      call_db (CallUpdateRepository r) (UpdateRepository (db s) ctx r);
    mret (redact repo, err).

(** [Server.Create] *)
Definition Create (s : Server St) (ctx : Context) (q : RepoCreateRequest)
  : M St (option Repository * option error) :=
  r ← deref (RepoCreateRequest_Repo q);
  if negb (EnforceClaims (enf s) (Value ctx "claims")
             ["repositories"; "create"; Repo r])
  then mret (None, ErrPermissionDenied)
  else
    let url := git_NormalizeGitURL (Repo r) in
    err ←
      call_out
        (CallTestRepo url (Username r) (Password r) (SSHPrivateKey r))
        (git_TestRepo url (Username r) (Password r) (SSHPrivateKey r));
    match err with
    | Some e => mret (None, Some e)
    | None =>
        let r :=
          set_ConnectionState r
            (ConnectionState.mk ConnectionStatusSuccessful "" None) in
        '(repo, err) ←
          call_db (CallCreateRepository r) (CreateRepository (db s) ctx r);
        if decide (status.Convert_Code err = codes.AlreadyExists)
        then
          '(existing, getErr) ←
            call_db (CallGetRepository (Repo r))
              (GetRepository (db s) ctx (Repo r));
          match getErr with
          | Some getErr =>
              mret (None,
                    status.Errorf codes.Internal
                      ("unable to check existing repository details: "
                       +:+ Error getErr))
          | None =>
              existing ← deref existing;
              let existing :=
                set_ConnectionState existing (ConnectionState r) in
              if decide (existing = r)
              then mret (redact (Some existing), None)
              else if Upsert q
              then Update s ctx {| RepoUpdateRequest_Repo := Some r |}
              else mret (None,
                         status.Errorf codes.InvalidArgument
                           "existing repository spec is different; use upsert flag to force update")
          end
        else mret (redact repo, err)
    end.

(** [Server.Get] *)
Definition Get (s : Server St) (ctx : Context) (q : RepoQuery)
  : M St (option Repository * option error) :=
  if negb (EnforceClaims (enf s) (Value ctx "claims")
             ["repositories"; "get"; RepoQuery_Repo q])
  then mret (None, ErrPermissionDenied)
  else
    '(repo, err) ←
      call_db (CallGetRepository (RepoQuery_Repo q))
        (GetRepository (db s) ctx (RepoQuery_Repo q));
    mret (redact repo, err).

(** [Server.Delete] *)
Definition Delete (s : Server St) (ctx : Context) (q : RepoQuery)
  : M St (option RepoResponse * option error) :=
  if negb (EnforceClaims (enf s) (Value ctx "claims")
             ["repositories"; "delete"; RepoQuery_Repo q])
  then mret (None, ErrPermissionDenied)
  else
    err ←
      call_db (CallDeleteRepository (RepoQuery_Repo q))
        (DeleteRepository (db s) ctx (RepoQuery_Repo q));
    mret (Some Build_RepoResponse, err).

End Handlers.


(** ** Collaborators to run the handlers with

    An in-memory store keyed by repository URL and stubs for the other
    collaborators.  They stand for the implementations behind the
    interfaces, which the service does not see, and are used only to
    evaluate the handlers on concrete requests. *)

Module Fixture.

(** A document is malformed when it starts with "!"; otherwise its bytes
    are the application name. *)
Definition parse_name (data : list byte) : option string :=
  match data with
  | x21 :: _ => None
  | _ => Some (string_of_list_byte data)
  end.

#[local] Instance ext : External := {|
  Claims := string;
  KsonnetEnvironment := unit;
  git_NormalizeGitURL := fun url => url;
  git_TestRepo := fun url _ _ _ =>
    if decide (url = "https://example.com/gone.git")
    then Some (PlainError "repository not found")
    else None;
  yaml_Unmarshal_HelmAppSpec := fun data appSpec =>
    match parse_name data with
    | Some name =>
        ({| HelmAppSpec_Name := name;
            HelmAppSpec_Path := HelmAppSpec_Path appSpec;
            ValueFiles := ValueFiles appSpec |}, None)
    | None => (appSpec, Some (PlainError "yaml: did not find expected key"))
    end;
  yaml_Unmarshal_KsonnetAppSpec := fun data appSpec =>
    match parse_name data with
    | Some name =>
        ({| KsonnetAppSpec_Name := name;
            KsonnetAppSpec_Path := KsonnetAppSpec_Path appSpec;
            Environments :=
              if decide (name = "noenv") then ∅ else {[ "default" := tt ]} |},
         None)
    | None => (appSpec, Some (PlainError "yaml: did not find expected key"))
    end;
|}.

(** The caller is named by its claims. *)
Definition ctx_of (subject : string) : Context :=
  {| Value := fun _ => subject |}.

(** An enforcer that allows the listed (claims, request) pairs. *)
Definition enforcer (policy : list (string * list string)) : Enforcer :=
  {| EnforceClaims := fun claims rvals =>
       bool_decide ((claims, rvals) ∈ policy) |}.

(** The in-memory store. *)
Definition memdb : ArgoDB (gmap string Repository) := {|
  ListRepositories := fun _ st =>
    ((Some {| Items := (map_to_list st).*2 |}, None), st);
  GetRepository := fun _ url st =>
    match st !! url with
    | Some r => ((Some r, None), st)
    | None =>
        ((None, Some (StatusError codes.NotFound "repo not found")), st)
    end;
  CreateRepository := fun _ r st =>
    match st !! Repo r with
    | Some _ =>
        ((None,
          Some (StatusError codes.AlreadyExists "repository already exists")),
         st)
    | None => ((Some r, None), <[Repo r := r]> st)
    end;
  UpdateRepository := fun _ r st =>
    match st !! Repo r with
    | Some _ => ((Some r, None), <[Repo r := r]> st)
    | None =>
        ((None, Some (StatusError codes.NotFound "repo not found")), st)
    end;
  DeleteRepository := fun _ url st => (None, delete url st);
|}.

(** The same store when its lookups fail. *)
Definition memdb_unreadable : ArgoDB (gmap string Repository) := {|
  ListRepositories := ListRepositories memdb;
  GetRepository := fun _ _ st =>
    ((None, Some (PlainError "connection refused")), st);
  CreateRepository := CreateRepository memdb;
  UpdateRepository := UpdateRepository memdb;
  DeleteRepository := DeleteRepository memdb;
|}.

(** A repository service that serves files from a table of
    (pattern or path, listing or content). *)
Definition client (dirs : list (string * list string))
    (files : list (string * list byte)) : RepositoryServiceClient := {|
  ListDir := fun _ req =>
    match list_find (fun d => d.1 = ListDirRequest_Path req) dirs with
    | Some (_, d) => (Some {| FileList_Items := d.2 |}, None)
    | None => (Some {| FileList_Items := [] |}, None)
    end;
  GetFile := fun _ req =>
    match list_find (fun f => f.1 = GetFileRequest_Path req) files with
    | Some (_, f) => (Some {| Data := f.2 |}, None)
    | None => (None, Some (StatusError codes.NotFound "file not found"))
    end;
|}.

Definition clientset (dirs : list (string * list string))
    (files : list (string * list byte)) : Clientset :=
  {| NewRepositoryClient := (Some (client dirs files), None) |}.

(** A repository with three ksonnet documents, of which one is malformed
    and one has no environment, and four helm documents, of which one is
    malformed and one names no application. *)
Definition ksonnet_paths : list string :=
  ["guestbook/app.yaml"; "broken/app.yaml"; "bare/app.yaml"].

Definition helm_paths : list string :=
  ["redis/Chart.yaml"; "bad/Chart.yaml"; "anon/Chart.yaml";
   "nginx/Chart.yaml"].

Definition dirs : list (string * list string) :=
  [("*app.yaml", ksonnet_paths); ("*Chart.yaml", helm_paths)].

Definition files : list (string * list byte) :=
  [("guestbook/app.yaml", list_byte_of_string "guestbook");
   ("broken/app.yaml", list_byte_of_string "!{");
   ("bare/app.yaml", list_byte_of_string "noenv");
   ("redis/Chart.yaml", list_byte_of_string "redis");
   ("bad/Chart.yaml", list_byte_of_string "!:");
   ("anon/Chart.yaml", list_byte_of_string "");
   ("nginx/Chart.yaml", list_byte_of_string "nginx")].

Definition server (d : ArgoDB (gmap string Repository))
    (policy : list (string * list string)) : Server (gmap string Repository) :=
  {| db := d;
     repoClientset := clientset dirs files;
     enf := enforcer policy |}.

Definition repo_a : Repository :=
  {| Repo := "https://example.com/a.git";
     Username := "alice";
     Password := "hunter2";
     SSHPrivateKey := "";
     ConnectionState := ConnectionState.mk "" "" None |}.


(** [repo_a] as the store holds it once created, and with another
    password. *)
Definition repo_a_stored : Repository :=
  set_ConnectionState repo_a
    (ConnectionState.mk ConnectionStatusSuccessful "" None).

Definition repo_a_old : Repository :=
  {| Repo := "https://example.com/a.git";
     Username := "alice";
     Password := "old";
     SSHPrivateKey := "";
     ConnectionState := ConnectionState.mk "Failed" "timeout" (Some 5%Z) |}.

(** A store that holds [repo_a] as created, and one that holds it with the
    old password. *)
Definition store_a : gmap string Repository :=
  {[ "https://example.com/a.git" := repo_a_stored ]}.

Definition store_a_old : gmap string Repository :=
  {[ "https://example.com/a.git" := repo_a_old ]}.

(** A stored copy of [repo_a] that differs from the request only in its
    connection state. *)
Definition repo_a_failed : Repository :=
  set_ConnectionState repo_a (ConnectionState.mk "Failed" "timeout" (Some 5%Z)).

Definition store_a_failed : gmap string Repository :=
  {[ "https://example.com/a.git" := repo_a_failed ]}.

Definition admin_policy : list (string * list string) :=
  [("admin", ["repositories"; "create"; "https://example.com/a.git"]);
   ("admin", ["repositories"; "update"; "https://example.com/a.git"]);
   ("admin", ["repositories"; "get"; "https://example.com/a.git"]);
   ("admin", ["repositories"; "delete"; "https://example.com/a.git"]);
   ("admin", ["repositories"; "create"; "https://example.com/gone.git"]);
   ("admin", ["repositories/apps"; "get"; "https://example.com/a.git"])].

End Fixture.


(** ** The sync executor's operations *)

Module SyncExecutor.

(** Modelled from the spec: the controller that runs sync operations is not
    among the sources.  Section 4.5 gives the states of an operation,
    [Pending → Running → {Succeeded, Failed, Error, Terminated}]. *)
Inductive Phase :=
| Pending | Running | Succeeded | Failed | Error | Terminated.

#[global] Instance Phase_eq_dec : EqDecision Phase.
Proof. solve_decision. Defined.

(** Modelled from the spec: a sync operation belongs to one application
    (section 3) and is in one state. *)
Record SyncOperation := { application : string; phase : Phase }.

(** Modelled from the spec: what can happen to the operations.  A sync is
    requested, manually or automatically, which creates an operation; an
    operation is dispatched; a running operation reaches a terminal state,
    or is cancelled. *)
Inductive Event :=
| Request (id : nat) (app : string)
| Dispatch (id : nat)
| Complete (id : nat) (result : Phase)
| Cancel (id : nat).

Inductive Reply := Accepted | Rejected.

(** Modelled from the spec: "an operation is Running for the application". *)
Definition running_for (app : string) (ops : gmap nat SyncOperation) : Prop :=
  map_Exists (fun _ op => application op = app ∧ phase op = Running) ops.

#[global] Instance running_for_dec app ops : Decision (running_for app ops).
Proof. unfold running_for. apply _. Defined.

(** Modelled from the spec: one step of the executor (sections 4.5, 4.6
    and 5).  [Pending → Running] happens "on dispatch, provided no other
    operation is Running for the same application"; a request that finds
    one running "is rejected (not queued)".  Dispatch holds the
    per-application mutual-exclusion token of section 5, so the test and
    the transition are one step, and concurrent requests are the
    interleavings of steps.  [Terminated] "is reachable only via explicit
    cancellation of a Running operation". *)
Definition step (ops : gmap nat SyncOperation) (e : Event)
  : gmap nat SyncOperation * Reply :=
  match e with
  | Request id app =>
      match ops !! id with
      | Some _ => (ops, Rejected)
      | None =>
          (<[id := {| application := app; phase := Pending |}]> ops, Accepted)
      end
  | Dispatch id =>
      match ops !! id with
      | Some {| application := app; phase := Pending |} =>
          if decide (running_for app ops)
          then (delete id ops, Rejected)
          else (<[id := {| application := app; phase := Running |}]> ops,
                Accepted)
      | _ => (ops, Rejected)
      end
  | Complete id result =>
      match ops !! id with
      | Some {| application := app; phase := Running |} =>
          if bool_decide (result ∈ [Succeeded; Failed; Error])
          then (<[id := {| application := app; phase := result |}]> ops,
                Accepted)
          else (ops, Rejected)
      | _ => (ops, Rejected)
      end
  | Cancel id =>
      match ops !! id with
      | Some {| application := app; phase := Running |} =>
          (<[id := {| application := app; phase := Terminated |}]> ops,
           Accepted)
      | _ => (ops, Rejected)
      end
  end.

(** Modelled from the spec: the operations after a sequence of events, in
    the order the executor takes them, starting with no operation. *)
Definition run (events : list Event) : gmap nat SyncOperation :=
  foldl (fun ops e => (step ops e).1) ∅ events.

(** Modelled from the spec: "at most one sync runs per application at a
    time". *)
Definition exclusive (ops : gmap nat SyncOperation) : Prop :=
  ∀ i j a b,
    ops !! i = Some a → ops !! j = Some b →
    phase a = Running → phase b = Running →
    application a = application b → i = j.

End SyncExecutor.


(** ** Notions the statements use *)

Section Notions.
Context `{External}.

(** Both secrets of a repository are blank. *)
Definition is_redacted (r : Repository) : Prop :=
  Password r = "" ∧ SSHPrivateKey r = "".

(** A handler's outcome hands no secret back. *)
Definition returns_redacted {St}
    (o : outcome St (option Repository * option error)) : Prop :=
  match o with
  | Returned (Some r, _) _ _ => is_redacted r
  | _ => True
  end.

(** A repository with both secrets blanked, as [redact] leaves it. *)
Definition blanked (r : Repository) : Repository :=
  {| Repo := Repo r;
     Username := Username r;
     Password := "";
     SSHPrivateKey := "";
     ConnectionState := ConnectionState r |}.

(** The caller may get the repository. *)
Definition may_get {St} (s : Server St) (ctx : Context) (repo : Repository)
  : bool :=
  EnforceClaims (enf s) (Value ctx "claims")
    ["repositories"; "get"; Repo repo].

(** The revision of a query, "HEAD" standing for the empty one. *)
Definition revision_of (q : RepoAppsQuery) : string :=
  if decide (Revision q = "") then "HEAD" else Revision q.

Definition file_request (repo : option Repository) (revision path : string)
  : GetFileRequest :=
  {| GetFileRequest_Repo := repo;
     GetFileRequest_Revision := revision;
     GetFileRequest_Path := path |}.

Definition dir_request (repo : option Repository) (revision pattern : string)
  : ListDirRequest :=
  {| ListDirRequest_Repo := repo;
     ListDirRequest_Revision := revision;
     ListDirRequest_Path := pattern |}.

(** The content of a file, when the repository service delivers it. *)
Definition fetched (client : RepositoryServiceClient) (ctx : Context)
    (repo : option Repository) (revision path : string)
  : option (list byte) :=
  match GetFile client ctx (file_request repo revision path) with
  | (Some res, None) => Some (Data res)
  | _ => None
  end.

(** The helm application a path stands for: its document parses and names
    the application. *)
Definition helm_document (client : RepositoryServiceClient) (ctx : Context)
    (repo : option Repository) (revision path : string)
  : option HelmAppSpec :=
  match fetched client ctx repo revision path with
  | Some data =>
      match yaml_Unmarshal_HelmAppSpec data
              {| HelmAppSpec_Name := "";
                 HelmAppSpec_Path := path;
                 ValueFiles := [] |} with
      | (appSpec, None) =>
          if decide (HelmAppSpec_Name appSpec = "") then None
          else Some appSpec
      | (_, Some _) => None
      end
  | None => None
  end.

(** The ksonnet application a path stands for: its document parses, names
    the application and has an environment. *)
Definition ksonnet_document (client : RepositoryServiceClient)
    (ctx : Context) (repo : option Repository) (revision path : string)
  : option (KsonnetAppSpec KsonnetEnvironment) :=
  match fetched client ctx repo revision path with
  | Some data =>
      match yaml_Unmarshal_KsonnetAppSpec data
              {| KsonnetAppSpec_Name := "";
                 KsonnetAppSpec_Path := path;
                 Environments := ∅ |} with
      | (appSpec, None) =>
          if decide (KsonnetAppSpec_Name appSpec = "") then None
          else if decide (Environments appSpec = ∅) then None
          else Some appSpec
      | (_, Some _) => None
      end
  | None => None
  end.

(** Every file of the list is delivered. *)
Definition all_fetched (client : RepositoryServiceClient) (ctx : Context)
    (repo : option Repository) (revision : string) (paths : list string)
  : Prop :=
  Forall (fun path => is_Some (fetched client ctx repo revision path)) paths.

(** The calls of a directory walk: the listing, then one fetch per path. *)
Definition walk_log (repo : option Repository) (revision pattern : string)
    (paths : list string) : list Call :=
  CallListDir (dir_request repo revision pattern)
  :: ((fun path => CallGetFile (file_request repo revision path)) <$> paths).

(** The call is made at the given revision, if it is made at one. *)
Definition at_revision (revision : string) (c : Call) : Prop :=
  ∀ rev, call_revision c = Some rev → rev = revision.


(** The log of [Create] up to the lookup of the existing repository. *)
Definition Create_log (r : Repository) : list Call :=
  [CallTestRepo (git_NormalizeGitURL (Repo r)) (Username r) (Password r)
     (SSHPrivateKey r);
   CallCreateRepository r;
   CallGetRepository (Repo r)].

(** [Create] is let through, the connection test passes, and the store
    refuses [r], the requested repository marked as connected, because it
    exists already; the refusal leaves the store [st1]. *)
Definition Create_meets_existing {St} (s : Server St) (ctx : Context)
    (q : RepoCreateRequest) (st : St) (r : Repository) (st1 : St) : Prop :=
  ∃ r0 repo err,
    RepoCreateRequest_Repo q = Some r0 ∧
    EnforceClaims (enf s) (Value ctx "claims")
      ["repositories"; "create"; Repo r0] = true ∧
    git_TestRepo (git_NormalizeGitURL (Repo r0)) (Username r0) (Password r0)
      (SSHPrivateKey r0) = None ∧
    r = set_ConnectionState r0
          (ConnectionState.mk ConnectionStatusSuccessful "" None) ∧
    CreateRepository (db s) ctx r st = ((repo, err), st1) ∧
    status.Convert_Code err = codes.AlreadyExists.

(** The text ends with the given cause. *)
Definition retains_cause (text cause : string) : Prop :=
  ∃ before, text = before +:+ cause.

(** C3 as the spec states it: when the caller may not get a repository of
    the store's listing, [List] yields the permission-denied error. *)
Definition List_denies_when_hidden {St} (s : Server St) (ctx : Context)
    (q : RepoQuery) (st : St) : Prop :=
  ∀ l err st1 repo,
    ListRepositories (db s) ctx st = ((Some l, err), st1) →
    repo ∈ Items l →
    may_get s ctx repo = false →
    ∃ res st' log,
      List s ctx q st = Returned (res, ErrPermissionDenied) st' log.

(** An outcome with earlier calls put before its log. *)
Definition after_calls {St A} (log : list Call) (o : outcome St A)
  : outcome St A :=
  match o with
  | Returned a st log' => Returned a st (log ++ log')
  | Panicked st log' => Panicked st (log ++ log')
  end.

End Notions.

(** ** The constructor, and further notions *)

Section Wiring.
Context `{External}.

(** [NewServer]: the repository clientset comes first among the arguments,
    the store second. *)
Definition NewServer {St} (repoClientset : Clientset) (db : ArgoDB St)
    (enf : Enforcer) : Server St :=
  Build_Server _ St db repoClientset enf.

(** The repository a request to the repository service carries. *)
Definition call_repository (c : Call) : option (option Repository) :=
  match c with
  | CallListDir req => Some (ListDirRequest_Repo req)
  | CallGetFile req => Some (GetFileRequest_Repo req)
  | _ => None
  end.

(** The pattern a directory listing asks for. *)
Definition call_pattern (c : Call) : option string :=
  match c with
  | CallListDir req => Some (ListDirRequest_Path req)
  | _ => None
  end.

(** The call closes the connection to the repository service. *)
Definition is_Close (c : Call) : bool :=
  match c with
  | CallClose => true
  | _ => false
  end.

(** The fetches of a list of paths, in order. *)
Definition fetch_log (repo : option Repository) (revision : string)
    (paths : list string) : list Call :=
  (fun path => CallGetFile (file_request repo revision path)) <$> paths.

(** The first two calls of [ListApps] once it is let through. *)
Definition ListApps_opening (q : RepoAppsQuery) : list Call :=
  [CallGetRepository (RepoAppsQuery_Repo q); CallNewRepositoryClient].

(** The request of [Create] as it is handed to the store: marked as
    connected. *)
Definition marked_connected (r : Repository) : Repository :=
  set_ConnectionState r
    (ConnectionState.mk ConnectionStatusSuccessful "" None).

(** The connection test [Create] runs on a request. *)
Definition Create_test (r : Repository) : Call :=
  CallTestRepo (git_NormalizeGitURL (Repo r)) (Username r) (Password r)
    (SSHPrivateKey r).

(** [Create] is let through and the connection test passes. *)
Definition Create_reaches_store {St} (s : Server St) (ctx : Context)
    (q : RepoCreateRequest) (r : Repository) : Prop :=
  RepoCreateRequest_Repo q = Some r
  ∧ EnforceClaims (enf s) (Value ctx "claims")
      ["repositories"; "create"; Repo r] = true
  ∧ git_TestRepo (git_NormalizeGitURL (Repo r)) (Username r) (Password r)
      (SSHPrivateKey r) = None.

(** [ListApps] is let through, finds the repository and gets a client. *)
Definition ListApps_is_served {St} (s : Server St) (ctx : Context)
    (q : RepoAppsQuery) (st : St) (repo : option Repository) (st1 : St)
    (client : RepositoryServiceClient) : Prop :=
  EnforceClaims (enf s) (Value ctx "claims")
    ["repositories/apps"; "get"; RepoAppsQuery_Repo q] = true
  ∧ GetRepository (db s) ctx (RepoAppsQuery_Repo q) st = ((repo, None), st1)
  ∧ NewRepositoryClient (repoClientset s) = (Some client, None).

(** The calls of the body of [ListApps], after the client is made and
    before the connection is closed: those of the ksonnet walk and, when
    it ends well, those of the helm walk. *)
Definition ListApps_listing {St} (s : Server St) (ctx : Context)
    (q : RepoAppsQuery) (repo : option Repository)
    (repoClient : option RepositoryServiceClient) (st : St) : list Call :=
  match listKsonnetApps s ctx repo (revision_of q) repoClient st with
  | Returned (_, None) stk logk =>
      logk ++ call_log (listHelmApps s ctx repo (revision_of q) repoClient stk)
  | o => call_log o
  end.

End Wiring.


(** ** More collaborators to run the handlers with *)

Module Samples.

#[local] Existing Instance Fixture.ext.

(** A caller that may create [repo_a] but not update it. *)
Definition creator_policy : list (string * list string) :=
  [("creator", ["repositories"; "create"; "https://example.com/a.git"])].

(** Listings that name a file the repository does not hold, among the
    ksonnet documents and among the helm documents. *)
Definition dirs_lost_ksonnet : list (string * list string) :=
  [("*app.yaml", ["guestbook/app.yaml"; "lost/app.yaml"; "bare/app.yaml"]);
   ("*Chart.yaml", Fixture.helm_paths)].

Definition dirs_lost_helm : list (string * list string) :=
  [("*app.yaml", Fixture.ksonnet_paths);
   ("*Chart.yaml", ["redis/Chart.yaml"; "lost/Chart.yaml";
                    "nginx/Chart.yaml"])].

(** A repository service that cannot list the given pattern. *)
Definition client_without (pattern : string) : RepositoryServiceClient := {|
  ListDir := fun ctx req =>
    if decide (ListDirRequest_Path req = pattern)
    then (None, Some (StatusError codes.Unavailable "listing failed"))
    else ListDir (Fixture.client Fixture.dirs Fixture.files) ctx req;
  GetFile := GetFile (Fixture.client Fixture.dirs Fixture.files);
|}.

(** A clientset that cannot make a client. *)
Definition clientset_down : Clientset :=
  {| NewRepositoryClient := (None, Some (PlainError "dial failed")) |}.

(** Servers built by [NewServer] over the in-memory store, with the
    administrator's policy. *)
Definition server_with (c : Clientset) : Server (gmap string Repository) :=
  NewServer c Fixture.memdb (Fixture.enforcer Fixture.admin_policy).

Definition apps_query : RepoAppsQuery :=
  {| RepoAppsQuery_Repo := "https://example.com/a.git"; Revision := "v1" |}.

End Samples.

(** ** Properties of the handlers *)

Ltac run :=
  unfold mbind, M_bind, mret, M_ret, deref, call_db, call_out, defer;
  simpl.

Section Properties.
Context `{External} {St : Type}.
Implicit Types (s : Server St) (ctx : Context) (st : St).

Lemma Errorf_Some c msg :
  c ≠ codes.OK → status.Errorf c msg = Some (StatusError c msg).
Proof. intros Hc. unfold status.Errorf. by destruct (decide (c = codes.OK)). Qed.

Lemma redact_Some r : redact (Some r) = Some (blanked r).
Proof. reflexivity. Qed.

Lemma blanked_is_redacted r : is_redacted (blanked r).
Proof. by split. Qed.

Lemma redact_returns_redacted st (repo : option Repository) err log :
  returns_redacted (Returned (redact repo, err) st log).
Proof. destruct repo; simpl; [apply blanked_is_redacted | done]. Qed.

(** The loop of [List] keeps, in order, the repositories the caller may get,
    blanked, and calls nobody. *)
Lemma List_range_filter s ctx items newItems st :
  List_range s ctx items newItems st =
  Returned (newItems ++ (blanked <$> filter (may_get s ctx) items)) st [].
Proof.
  revert newItems. induction items as [|repo items IH]; intros newItems.
  - simpl. run. by rewrite app_nil_r.
  - simpl. rewrite filter_cons. fold (may_get s ctx repo).
    destruct (may_get s ctx repo).
    + rewrite decide_True by done.
      run. rewrite IH. simpl. by rewrite <- app_assoc.
    + rewrite decide_False by (by intros []).
      apply IH.
Qed.

Lemma List_unfold s ctx q st :
  List s ctx q st =
  let '((repoList, err), st') := ListRepositories (db s) ctx st in
  Returned
    ((fun l => {| Items := blanked <$> filter (may_get s ctx) (Items l) |})
       <$> repoList, err)
    st' [CallListRepositories].
Proof.
  unfold List. run.
  destruct (ListRepositories (db s) ctx st) as [[[l|] err] st']; simpl; [|done].
  by rewrite List_range_filter.
Qed.

(** C1.  When the enforcer denies the capability a handler asks for
    (create, update, delete or get on the repository, get on its
    applications), the handler returns the permission-denied error at once:
    the store is the one it started from and the log is empty, so no call
    was made to the store or to any other collaborator, and nothing was
    handed over to be run later. *)
Theorem denied_capability_is_refused s ctx st :
  (∀ q r, RepoCreateRequest_Repo q = Some r →
     EnforceClaims (enf s) (Value ctx "claims")
       ["repositories"; "create"; Repo r] = false →
     Create s ctx q st = Returned (None, ErrPermissionDenied) st [])
  ∧ (∀ q r, RepoUpdateRequest_Repo q = Some r →
     EnforceClaims (enf s) (Value ctx "claims")
       ["repositories"; "update"; Repo r] = false →
     Update s ctx q st = Returned (None, ErrPermissionDenied) st [])
  ∧ (∀ q,
     EnforceClaims (enf s) (Value ctx "claims")
       ["repositories"; "delete"; RepoQuery_Repo q] = false →
     Delete s ctx q st = Returned (None, ErrPermissionDenied) st [])
  ∧ (∀ q,
     EnforceClaims (enf s) (Value ctx "claims")
       ["repositories"; "get"; RepoQuery_Repo q] = false →
     Get s ctx q st = Returned (None, ErrPermissionDenied) st [])
  ∧ (∀ q,
     EnforceClaims (enf s) (Value ctx "claims")
       ["repositories/apps"; "get"; RepoAppsQuery_Repo q] = false →
     ListApps s ctx q st = Returned (None, ErrPermissionDenied) st [])
  ∧ status.Convert_Code ErrPermissionDenied = codes.PermissionDenied.
Proof.
  repeat split.
  - intros q r Hq Hdeny. unfold Create. rewrite Hq. run. by rewrite Hdeny.
  - intros q r Hq Hdeny. unfold Update. rewrite Hq. run. by rewrite Hdeny.
  - intros q Hdeny. unfold Delete. by rewrite Hdeny.
  - intros q Hdeny. unfold Get. by rewrite Hdeny.
  - intros q Hdeny. unfold ListApps. by rewrite Hdeny.
Qed.

(** C2.  Whatever [List], [Get], [Create] and [Update] return, every
    repository in it has an empty [Password] and an empty [SSHPrivateKey];
    and [redact] of a nil repository is nil. *)
Theorem responses_are_redacted s ctx st :
  (∀ q, match List s ctx q st with
        | Returned (Some l, _) _ _ => Forall is_redacted (Items l)
        | _ => True
        end)
  ∧ (∀ q, returns_redacted (Get s ctx q st))
  ∧ (∀ q, returns_redacted (Create s ctx q st))
  ∧ (∀ q, returns_redacted (Update s ctx q st))
  ∧ redact None = None.
Proof.
  assert (HU : ∀ q st', returns_redacted (Update s ctx q st')).
  { intros q st'. unfold Update. run.
    destruct (RepoUpdateRequest_Repo q) as [r|]; [|done].
    destruct (EnforceClaims _ _ _); simpl; [|done].
    destruct (UpdateRepository _ _ _ _) as [[repo err] st1].
    apply redact_returns_redacted. }
  repeat split.
  - intros q. rewrite List_unfold.
    destruct (ListRepositories (db s) ctx st) as [[[l|] err] st']; simpl; [|done].
    apply Forall_fmap, Forall_forall. intros r _. apply blanked_is_redacted.
  - intros q. unfold Get.
    destruct (EnforceClaims _ _ _); simpl; [|done]. run.
    destruct (GetRepository _ _ _ _) as [[repo err] st1].
    apply redact_returns_redacted.
  - intros q. unfold Create. run.
    destruct (RepoCreateRequest_Repo q) as [r|]; [|done].
    destruct (EnforceClaims _ _ _); simpl; [|done].
    destruct (git_TestRepo _ _ _ _); [done|].
    destruct (CreateRepository _ _ _ _) as [[repo err] st1].
    destruct (decide _); [|apply redact_returns_redacted].
    destruct (GetRepository _ _ _ _) as [[existing getErr] st2].
    destruct getErr; [done|].
    destruct existing as [existing|]; [|done]. simpl.
    destruct (decide _); [by split|].
    destruct (Upsert q); [|done].
    specialize (HU {| RepoUpdateRequest_Repo :=
                        Some (set_ConnectionState r
                          (ConnectionState.mk ConnectionStatusSuccessful "" None)) |} st2).
    destruct (Update _ _ _ _) as [[[u|] uerr] ? ?|]; done.
  - intros q. apply HU.
Qed.

(** C3, as the code has it.  [List] leaves out, without an error of its
    own, the repositories the caller may not get: it returns those the
    caller may get, blanked and in the order of the store's listing,
    together with the error of the store's [ListRepositories], whatever it
    is; its only call is that listing. *)
Theorem List_omits_what_the_caller_may_not_get s ctx q st :
  List s ctx q st =
  let '((repoList, err), st') := ListRepositories (db s) ctx st in
  Returned
    ((fun l => {| Items := blanked <$> filter (may_get s ctx) (Items l) |})
       <$> repoList, err)
    st' [CallListRepositories].
Proof. apply List_unfold. Qed.

(** What [Create] does once the store has refused the repository as
    existing: it looks the existing one up and compares. *)
Lemma Create_at_existing s ctx q st r st1 :
  Create_meets_existing s ctx q st r st1 →
  Create s ctx q st =
  match GetRepository (db s) ctx (Repo r) st1 with
  | ((_, Some getErr), st2) =>
      Returned
        (None,
         status.Errorf codes.Internal
           ("unable to check existing repository details: "
            +:+ Error getErr))
        st2 (Create_log r)
  | ((None, None), st2) => Panicked st2 (Create_log r)
  | ((Some existing, None), st2) =>
      if decide (set_ConnectionState existing (ConnectionState r) = r)
      then Returned
             (redact (Some (set_ConnectionState existing (ConnectionState r))),
              None) st2 (Create_log r)
      else if Upsert q
      then after_calls (Create_log r)
             (Update s ctx {| RepoUpdateRequest_Repo := Some r |} st2)
      else Returned
             (None,
              status.Errorf codes.InvalidArgument
                "existing repository spec is different; use upsert flag to force update")
             st2 (Create_log r)
  end.
Proof.
  intros (r0 & repo & err & Hq & Hallow & Htest & -> & Hcreate & Hcode).
  unfold Create. rewrite Hq. run. rewrite Hallow. simpl. rewrite Htest.
  rewrite Hcreate. rewrite decide_True by done.
  destruct (GetRepository _ _ _ _) as [[[existing|] [getErr|]] st2];
    try done.
  simpl. destruct (decide _); [done|].
  destruct (Upsert q); [|done].
  by destruct (Update _ _ _ _).
Qed.


(** C9.  When the store refuses the created repository as existing and the
    lookup of the existing one fails with [getErr], [Create] returns an
    error of code [Internal] whose message ends with the text of
    [getErr]. *)
Theorem Create_lookup_failure_keeps_cause s ctx q st r st1 existing getErr st2 :
  Create_meets_existing s ctx q st r st1 →
  GetRepository (db s) ctx (Repo r) st1 = ((existing, Some getErr), st2) →
  ∃ e,
    Create s ctx q st = Returned (None, Some e) st2 (Create_log r)
    ∧ status.Convert_Code (Some e) = codes.Internal
    ∧ e = StatusError codes.Internal
            ("unable to check existing repository details: "
             +:+ Error getErr)
    ∧ retains_cause (Error e) (Error getErr).
Proof.
  intros Hmeet Hget.
  pose proof (Create_at_existing _ _ _ _ _ _ Hmeet) as HC.
  rewrite Hget in HC. rewrite Errorf_Some in HC by done.
  eexists. split; [by destruct existing|]. repeat split.
  by exists "rpc error: code = Internal desc = unable to check existing repository details: ".
Qed.


(** *** The directory walks *)

Lemma after_calls_nil {A} (o : outcome St A) : after_calls [] o = o.
Proof. by destruct o. Qed.

(** One turn of the loop of [listHelmApps]. *)
Lemma listHelmApps_range_cons client ctx repo revision path paths helmApps st :
  listHelmApps_range client ctx repo revision (path :: paths) helmApps st =
  match GetFile client ctx (file_request repo revision path) with
  | (_, Some e) =>
      Returned ([], Some e) st [CallGetFile (file_request repo revision path)]
  | (None, None) =>
      Panicked st [CallGetFile (file_request repo revision path)]
  | (Some _, None) =>
      after_calls [CallGetFile (file_request repo revision path)]
        (listHelmApps_range client ctx repo revision paths
           (helmApps
            ++ option_list (helm_document client ctx repo revision path)) st)
  end.
Proof.
  simpl. run. unfold helm_document, fetched. fold (file_request repo revision path).
  destruct (GetFile _ _ _) as [[res|] [e|]]; simpl; try done.
  destruct (yaml_Unmarshal_HelmAppSpec _ _) as [appSpec [err|]]; simpl.
  - rewrite app_nil_r. by destruct (listHelmApps_range _ _ _ _ _ _ _).
  - destruct (decide (HelmAppSpec_Name appSpec = "")) as [Hn|Hn].
    + rewrite bool_decide_true by done. simpl. rewrite app_nil_r.
      by destruct (listHelmApps_range _ _ _ _ _ _ _).
    + rewrite bool_decide_false by done. simpl.
      by destruct (listHelmApps_range _ _ _ _ _ _ _).
Qed.

(** One turn of the loop of [listKsonnetApps]. *)
Lemma listKsonnetApps_range_cons client ctx repo revision path paths
    ksonnetApps st :
  listKsonnetApps_range client ctx repo revision (path :: paths) ksonnetApps
    st =
  match GetFile client ctx (file_request repo revision path) with
  | (_, Some e) =>
      Returned ([], Some e) st [CallGetFile (file_request repo revision path)]
  | (None, None) =>
      Panicked st [CallGetFile (file_request repo revision path)]
  | (Some _, None) =>
      after_calls [CallGetFile (file_request repo revision path)]
        (listKsonnetApps_range client ctx repo revision paths
           (ksonnetApps
            ++ option_list (ksonnet_document client ctx repo revision path))
           st)
  end.
Proof.
  simpl. run. unfold ksonnet_document, fetched.
  fold (file_request repo revision path).
  destruct (GetFile _ _ _) as [[res|] [e|]]; simpl; try done.
  destruct (yaml_Unmarshal_KsonnetAppSpec _ _) as [appSpec [err|]]; simpl.
  - rewrite app_nil_r. by destruct (listKsonnetApps_range _ _ _ _ _ _ _).
  - destruct (decide (KsonnetAppSpec_Name appSpec = "")) as [Hn|Hn].
    + rewrite bool_decide_true by done. simpl. rewrite app_nil_r.
      by destruct (listKsonnetApps_range _ _ _ _ _ _ _).
    + rewrite bool_decide_false by done. simpl.
      destruct (decide (Environments appSpec = ∅)) as [He|He].
      * rewrite bool_decide_false
          by (rewrite He, map_size_empty; apply Nat.lt_irrefl).
        simpl. rewrite app_nil_r.
        by destruct (listKsonnetApps_range _ _ _ _ _ _ _).
      * rewrite bool_decide_true
          by (by apply Nat.neq_0_lt_0; rewrite map_size_empty_iff).
        by destruct (listKsonnetApps_range _ _ _ _ _ _ _).
Qed.

(** A walk over paths that fetches each file and keeps the document it
    stands for, as both loops do. *)
Section Walk.
Context {A : Type}
  (range : list string → list A → M St (list A * option error))
  (doc : string → option A)
  (client : RepositoryServiceClient) (ctx : Context)
  (repo : option Repository) (revision : string).
Hypothesis range_nil : ∀ acc st, range [] acc st = Returned (acc, None) st [].
Hypothesis range_cons : ∀ path paths acc st,
  range (path :: paths) acc st =
  match GetFile client ctx (file_request repo revision path) with
  | (_, Some e) =>
      Returned ([], Some e) st [CallGetFile (file_request repo revision path)]
  | (None, None) =>
      Panicked st [CallGetFile (file_request repo revision path)]
  | (Some _, None) =>
      after_calls [CallGetFile (file_request repo revision path)]
        (range paths (acc ++ option_list (doc path)) st)
  end.

Lemma fetched_Some path :
  is_Some (fetched client ctx repo revision path) ↔
  ∃ res, GetFile client ctx (file_request repo revision path)
         = (Some res, None).
Proof.
  unfold fetched.
  destruct (GetFile _ _ _) as [[res|] [e|]]; split;
    intros H'; try (by destruct H' as [? [=]]); eauto.
Qed.

(** When every file is delivered the walk ends well, whatever the files
    hold, with the documents in the order of the paths. *)
Lemma walk_fetched paths acc st :
  Forall (fun path => is_Some (fetched client ctx repo revision path)) paths →
  range paths acc st =
  Returned (acc ++ omap doc paths, None) st
    ((fun path => CallGetFile (file_request repo revision path)) <$> paths).
Proof.
  revert acc. induction paths as [|path paths IH]; intros acc Hall.
  - rewrite range_nil. simpl. by rewrite app_nil_r.
  - apply Forall_cons in Hall as [[res Hres]%fetched_Some Hall].
    rewrite range_cons, Hres, IH by done. simpl.
    rewrite <- app_assoc. by destruct (doc path).
Qed.

(** A walk that ends well was delivered every file. *)
Lemma walk_returned paths acc st apps st' log :
  range paths acc st = Returned (apps, None) st' log →
  Forall (fun path => is_Some (fetched client ctx repo revision path)) paths.
Proof.
  revert acc log. induction paths as [|path paths IH]; intros acc log Hrun.
  - constructor.
  - rewrite range_cons in Hrun.
    destruct (GetFile _ _ _) as [[res|] [e|]] eqn:Hres; try done.
    destruct (range paths _ st) as [[apps' err'] st'' log'|] eqn:Hrest;
      simpl in Hrun; [|done].
    injection Hrun as -> -> -> <-.
    constructor; [apply fetched_Some; eauto | eapply IH, Hrest].
Qed.

(** Every file is asked for at the revision of the walk. *)
Lemma walk_at_revision paths acc st :
  Forall (at_revision revision) (call_log (range paths acc st)).
Proof.
  revert acc. induction paths as [|path paths IH]; intros acc.
  - rewrite range_nil. constructor.
  - rewrite range_cons.
    assert (Hc : at_revision revision
                   (CallGetFile (file_request repo revision path))).
    { by intros rev [= <-]. }
    destruct (GetFile _ _ _) as [[res|] [e|]]; simpl;
      try (by repeat constructor).
    specialize (IH (acc ++ option_list (doc path))).
    destruct (range paths _ st); simpl in *; by constructor.
Qed.

End Walk.

Lemma listHelmApps_fetched s ctx repo revision client paths st :
  ListDir client ctx (dir_request repo revision "*Chart.yaml")
    = (Some {| FileList_Items := paths |}, None) →
  all_fetched client ctx repo revision paths →
  listHelmApps s ctx repo revision (Some client) st =
  Returned (omap (helm_document client ctx repo revision) paths, None) st
    (walk_log repo revision "*Chart.yaml" paths).
Proof.
  intros Hdir Hall. unfold listHelmApps. run.
  fold (dir_request repo revision "*Chart.yaml"). rewrite Hdir. simpl.
  by rewrite (walk_fetched _ _ client ctx repo revision
                (fun _ _ => eq_refl)
                (listHelmApps_range_cons client ctx repo revision)).
Qed.

Lemma listHelmApps_returned s ctx repo revision repoClient st apps st' log :
  listHelmApps s ctx repo revision repoClient st = Returned (apps, None) st' log →
  ∃ client paths,
    repoClient = Some client
    ∧ ListDir client ctx (dir_request repo revision "*Chart.yaml")
      = (Some {| FileList_Items := paths |}, None)
    ∧ all_fetched client ctx repo revision paths.
Proof.
  unfold listHelmApps. run.
  destruct repoClient as [client|]; [|done].
  fold (dir_request repo revision "*Chart.yaml").
  destruct (ListDir _ _ _) as [[[paths]|] [e|]] eqn:Hdir; simpl; try done.
  destruct (listHelmApps_range _ _ _ _ _ _ _)
    as [[apps' err'] st'' log'|] eqn:Hrange; [|done].
  intros [= -> -> -> <-].
  exists client, paths. split; [done|]. split; [done|].
  eapply (walk_returned _ _ client ctx repo revision
            (listHelmApps_range_cons client ctx repo revision)), Hrange.
Qed.

Lemma listHelmApps_at_revision s ctx repo revision repoClient st :
  Forall (at_revision revision)
    (call_log (listHelmApps s ctx repo revision repoClient st)).
Proof.
  unfold listHelmApps. run.
  destruct repoClient as [client|]; [|constructor].
  fold (dir_request repo revision "*Chart.yaml").
  assert (Hc : at_revision revision
                 (CallListDir (dir_request repo revision "*Chart.yaml"))).
  { by intros rev [= <-]. }
  destruct (ListDir _ _ _) as [[[paths]|] [e|]]; simpl;
    try (by repeat constructor).
  pose proof (walk_at_revision _ _ client ctx repo revision
                (fun _ _ => eq_refl)
                (listHelmApps_range_cons client ctx repo revision)
                paths [] st) as Hw.
  destruct (listHelmApps_range _ _ _ _ _ _ _); simpl in *; by constructor.
Qed.

Lemma listKsonnetApps_fetched s ctx repo revision client paths st :
  ListDir client ctx (dir_request repo revision "*app.yaml")
    = (Some {| FileList_Items := paths |}, None) →
  all_fetched client ctx repo revision paths →
  listKsonnetApps s ctx repo revision (Some client) st =
  Returned (omap (ksonnet_document client ctx repo revision) paths, None) st
    (walk_log repo revision "*app.yaml" paths).
Proof.
  intros Hdir Hall. unfold listKsonnetApps. run.
  fold (dir_request repo revision "*app.yaml"). rewrite Hdir. simpl.
  by rewrite (walk_fetched _ _ client ctx repo revision
                (fun _ _ => eq_refl)
                (listKsonnetApps_range_cons client ctx repo revision)).
Qed.

Lemma listKsonnetApps_returned s ctx repo revision repoClient st apps st' log :
  listKsonnetApps s ctx repo revision repoClient st
    = Returned (apps, None) st' log →
  ∃ client paths,
    repoClient = Some client
    ∧ ListDir client ctx (dir_request repo revision "*app.yaml")
      = (Some {| FileList_Items := paths |}, None)
    ∧ all_fetched client ctx repo revision paths.
Proof.
  unfold listKsonnetApps. run.
  destruct repoClient as [client|]; [|done].
  fold (dir_request repo revision "*app.yaml").
  destruct (ListDir _ _ _) as [[[paths]|] [e|]] eqn:Hdir; simpl; try done.
  destruct (listKsonnetApps_range _ _ _ _ _ _ _)
    as [[apps' err'] st'' log'|] eqn:Hrange; [|done].
  intros [= -> -> -> <-].
  exists client, paths. split; [done|]. split; [done|].
  eapply (walk_returned _ _ client ctx repo revision
            (listKsonnetApps_range_cons client ctx repo revision)), Hrange.
Qed.

Lemma listKsonnetApps_at_revision s ctx repo revision repoClient st :
  Forall (at_revision revision)
    (call_log (listKsonnetApps s ctx repo revision repoClient st)).
Proof.
  unfold listKsonnetApps. run.
  destruct repoClient as [client|]; [|constructor].
  fold (dir_request repo revision "*app.yaml").
  assert (Hc : at_revision revision
                 (CallListDir (dir_request repo revision "*app.yaml"))).
  { by intros rev [= <-]. }
  destruct (ListDir _ _ _) as [[[paths]|] [e|]]; simpl;
    try (by repeat constructor).
  pose proof (walk_at_revision _ _ client ctx repo revision
                (fun _ _ => eq_refl)
                (listKsonnetApps_range_cons client ctx repo revision)
                paths [] st) as Hw.
  destruct (listKsonnetApps_range _ _ _ _ _ _ _); simpl in *; by constructor.
Qed.

Lemma elem_of_helm_documents client ctx repo revision (paths : list string)
    appSpec :
  appSpec ∈ omap (helm_document client ctx repo revision) paths ↔
  ∃ path data,
    path ∈ paths
    ∧ fetched client ctx repo revision path = Some data
    ∧ yaml_Unmarshal_HelmAppSpec data
        {| HelmAppSpec_Name := ""; HelmAppSpec_Path := path;
           ValueFiles := [] |} = (appSpec, None)
    ∧ HelmAppSpec_Name appSpec ≠ "".
Proof.
  rewrite list_elem_of_omap. unfold helm_document. split.
  - intros (path & Hin & Hdoc).
    destruct (fetched _ _ _ _ _) as [data|] eqn:Hf; [|done].
    destruct (yaml_Unmarshal_HelmAppSpec _ _) as [a [e|]] eqn:Hy; [done|].
    destruct (decide _); [done|]. injection Hdoc as ->.
    by exists path, data.
  - intros (path & data & Hin & Hf & Hy & Hn).
    exists path. split; [done|]. rewrite Hf, Hy. by rewrite decide_False.
Qed.

Lemma elem_of_ksonnet_documents client ctx repo revision
    (paths : list string) appSpec :
  appSpec ∈ omap (ksonnet_document client ctx repo revision) paths ↔
  ∃ path data,
    path ∈ paths
    ∧ fetched client ctx repo revision path = Some data
    ∧ yaml_Unmarshal_KsonnetAppSpec data
        {| KsonnetAppSpec_Name := ""; KsonnetAppSpec_Path := path;
           Environments := ∅ |} = (appSpec, None)
    ∧ KsonnetAppSpec_Name appSpec ≠ ""
    ∧ Environments appSpec ≠ ∅.
Proof.
  rewrite list_elem_of_omap. unfold ksonnet_document. split.
  - intros (path & Hin & Hdoc).
    destruct (fetched _ _ _ _ _) as [data|] eqn:Hf; [|done].
    destruct (yaml_Unmarshal_KsonnetAppSpec _ _) as [a [e|]] eqn:Hy; [done|].
    destruct (decide _); [done|]. destruct (decide _); [done|].
    injection Hdoc as ->. by exists path, data.
  - intros (path & data & Hin & Hf & Hy & Hn & He).
    exists path. split; [done|]. rewrite Hf, Hy. by rewrite !decide_False.
Qed.

(** C6.  Let [ListApps] be let through, the repository be found, the
    client be made, both directory listings be delivered and every listed
    file be fetched.  Then [ListApps] returns a response and no error,
    whatever the files hold: a helm document is in the response exactly
    when it parses and names its application, a ksonnet document exactly
    when it parses, names its application and has an environment; a
    document that does not parse, has no name or, for ksonnet, no
    environment, is the only one left out. *)
Theorem ListApps_skips_unusable_documents s ctx q st repo st1 client kpaths
    hpaths :
  EnforceClaims (enf s) (Value ctx "claims")
    ["repositories/apps"; "get"; RepoAppsQuery_Repo q] = true →
  GetRepository (db s) ctx (RepoAppsQuery_Repo q) st = ((repo, None), st1) →
  NewRepositoryClient (repoClientset s) = (Some client, None) →
  ListDir client ctx (dir_request repo (revision_of q) "*app.yaml")
    = (Some {| FileList_Items := kpaths |}, None) →
  ListDir client ctx (dir_request repo (revision_of q) "*Chart.yaml")
    = (Some {| FileList_Items := hpaths |}, None) →
  all_fetched client ctx repo (revision_of q) (kpaths ++ hpaths) →
  ∃ resp,
    ListApps s ctx q st =
    Returned (Some resp, None) st1
      ([CallGetRepository (RepoAppsQuery_Repo q); CallNewRepositoryClient]
       ++ walk_log repo (revision_of q) "*app.yaml" kpaths
       ++ walk_log repo (revision_of q) "*Chart.yaml" hpaths
       ++ [CallClose])
    ∧ (∀ appSpec, appSpec ∈ HelmApps resp ↔
         ∃ path data,
           path ∈ hpaths
           ∧ fetched client ctx repo (revision_of q) path = Some data
           ∧ yaml_Unmarshal_HelmAppSpec data
               {| HelmAppSpec_Name := ""; HelmAppSpec_Path := path;
                  ValueFiles := [] |} = (appSpec, None)
           ∧ HelmAppSpec_Name appSpec ≠ "")
    ∧ (∀ appSpec, appSpec ∈ KsonnetApps resp ↔
         ∃ path data,
           path ∈ kpaths
           ∧ fetched client ctx repo (revision_of q) path = Some data
           ∧ yaml_Unmarshal_KsonnetAppSpec data
               {| KsonnetAppSpec_Name := ""; KsonnetAppSpec_Path := path;
                  Environments := ∅ |} = (appSpec, None)
           ∧ KsonnetAppSpec_Name appSpec ≠ ""
           ∧ Environments appSpec ≠ ∅).
Proof.
  intros Hallow Hrepo Hclient Hk Hh [Hfk Hfh]%Forall_app.
  exists {| KsonnetApps :=
              omap (ksonnet_document client ctx repo (revision_of q)) kpaths;
            HelmApps :=
              omap (helm_document client ctx repo (revision_of q)) hpaths |}.
  split; [|split].
  - unfold ListApps. rewrite Hallow.
    unfold mbind, M_bind, mret, M_ret, call_db, call_out, defer.
    cbn -[listKsonnetApps listHelmApps].
    rewrite Hrepo, Hclient. fold (revision_of q).
    rewrite (listKsonnetApps_fetched _ _ _ _ _ _ _ Hk Hfk).
    rewrite (listHelmApps_fetched _ _ _ _ _ _ _ Hh Hfh).
    cbn -[walk_log]. by rewrite !app_nil_r, <- !app_assoc.
  - intros appSpec. apply elem_of_helm_documents.
  - intros appSpec. apply elem_of_ksonnet_documents.
Qed.

(** [ListApps] when it is let through, finds the repository, gets a
    client, and both listings and every listed file are delivered. *)
Lemma ListApps_fetched s ctx q st repo st1 client kpaths hpaths :
  EnforceClaims (enf s) (Value ctx "claims")
    ["repositories/apps"; "get"; RepoAppsQuery_Repo q] = true →
  GetRepository (db s) ctx (RepoAppsQuery_Repo q) st = ((repo, None), st1) →
  NewRepositoryClient (repoClientset s) = (Some client, None) →
  ListDir client ctx (dir_request repo (revision_of q) "*app.yaml")
    = (Some {| FileList_Items := kpaths |}, None) →
  ListDir client ctx (dir_request repo (revision_of q) "*Chart.yaml")
    = (Some {| FileList_Items := hpaths |}, None) →
  all_fetched client ctx repo (revision_of q) (kpaths ++ hpaths) →
  ListApps s ctx q st =
  Returned
    (Some {| KsonnetApps :=
               omap (ksonnet_document client ctx repo (revision_of q)) kpaths;
             HelmApps :=
               omap (helm_document client ctx repo (revision_of q)) hpaths |},
     None)
    st1
    ([CallGetRepository (RepoAppsQuery_Repo q); CallNewRepositoryClient]
     ++ walk_log repo (revision_of q) "*app.yaml" kpaths
     ++ walk_log repo (revision_of q) "*Chart.yaml" hpaths
     ++ [CallClose]).
Proof.
  intros Hallow Hrepo Hclient Hk Hh [Hfk Hfh]%Forall_app.
  unfold ListApps. rewrite Hallow.
  unfold mbind, M_bind, mret, M_ret, call_db, call_out, defer.
  cbn -[listKsonnetApps listHelmApps].
  rewrite Hrepo, Hclient. fold (revision_of q).
  rewrite (listKsonnetApps_fetched _ _ _ _ _ _ _ Hk Hfk).
  rewrite (listHelmApps_fetched _ _ _ _ _ _ _ Hh Hfh).
  cbn -[walk_log]. by rewrite !app_nil_r, <- !app_assoc.
Qed.

(** C8.  The calls [ListApps] makes to the repository service are all made
    at one revision, that of the query, or "HEAD" when the query has none.
    When [ListApps] is let through and the store's [GetRepository], the
    clientset's [NewRepositoryClient], the two directory listings of that
    client at that revision and the fetches of the listed files succeed,
    [ListApps] returns the response whose ksonnet applications and helm
    applications are those of the paths of the two listings, taken in the
    order of the listing, the paths whose document is left out being
    skipped; its calls are the lookup, the making of the client, the
    ksonnet listing and its fetches, the helm listing and its fetches, in
    the order of the paths, and the closing.  And [ListApps] returns a
    response in no other way: behind every response are that repository,
    that client and these listings. *)
Theorem ListApps_keeps_the_listing_order s ctx q st :
  Forall (at_revision (revision_of q)) (call_log (ListApps s ctx q st))
  ∧ (Revision q = "" → revision_of q = "HEAD")
  ∧ (Revision q ≠ "" → revision_of q = Revision q)
  ∧ (∀ repo st1 client kpaths hpaths,
       EnforceClaims (enf s) (Value ctx "claims")
         ["repositories/apps"; "get"; RepoAppsQuery_Repo q] = true →
       GetRepository (db s) ctx (RepoAppsQuery_Repo q) st
         = ((repo, None), st1) →
       NewRepositoryClient (repoClientset s) = (Some client, None) →
       ListDir client ctx (dir_request repo (revision_of q) "*app.yaml")
         = (Some {| FileList_Items := kpaths |}, None) →
       ListDir client ctx (dir_request repo (revision_of q) "*Chart.yaml")
         = (Some {| FileList_Items := hpaths |}, None) →
       all_fetched client ctx repo (revision_of q) (kpaths ++ hpaths) →
       ListApps s ctx q st =
       Returned
         (Some {| KsonnetApps :=
                    omap (ksonnet_document client ctx repo (revision_of q))
                      kpaths;
                  HelmApps :=
                    omap (helm_document client ctx repo (revision_of q))
                      hpaths |},
          None)
         st1
         ([CallGetRepository (RepoAppsQuery_Repo q); CallNewRepositoryClient]
          ++ walk_log repo (revision_of q) "*app.yaml" kpaths
          ++ walk_log repo (revision_of q) "*Chart.yaml" hpaths
          ++ [CallClose]))
  ∧ ∀ resp st' log,
      ListApps s ctx q st = Returned (Some resp, None) st' log →
      ∃ repo client kpaths hpaths,
        EnforceClaims (enf s) (Value ctx "claims")
          ["repositories/apps"; "get"; RepoAppsQuery_Repo q] = true
        ∧ GetRepository (db s) ctx (RepoAppsQuery_Repo q) st
          = ((repo, None), st')
        ∧ NewRepositoryClient (repoClientset s) = (Some client, None)
        ∧ ListDir client ctx (dir_request repo (revision_of q) "*app.yaml")
          = (Some {| FileList_Items := kpaths |}, None)
        ∧ ListDir client ctx (dir_request repo (revision_of q) "*Chart.yaml")
          = (Some {| FileList_Items := hpaths |}, None)
        ∧ all_fetched client ctx repo (revision_of q) (kpaths ++ hpaths)
        ∧ KsonnetApps resp
          = omap (ksonnet_document client ctx repo (revision_of q)) kpaths
        ∧ HelmApps resp
          = omap (helm_document client ctx repo (revision_of q)) hpaths
        ∧ log
          = [CallGetRepository (RepoAppsQuery_Repo q);
             CallNewRepositoryClient]
            ++ walk_log repo (revision_of q) "*app.yaml" kpaths
            ++ walk_log repo (revision_of q) "*Chart.yaml" hpaths
            ++ [CallClose].
Proof.
  split; [|split; [|split; [|split]]].
  - unfold ListApps.
    destruct (EnforceClaims _ _ _); simpl; [|constructor].
    unfold mbind, M_bind, mret, M_ret, call_db, call_out, defer.
    cbn -[listKsonnetApps listHelmApps].
    destruct (GetRepository _ _ _ _) as [[repo [e|]] st1];
      [by repeat constructor|].
    destruct (NewRepositoryClient _) as [repoClient [e|]];
      [by repeat constructor|].
    fold (revision_of q).
    pose proof (listKsonnetApps_at_revision s ctx repo (revision_of q)
                  repoClient st1) as Hk.
    destruct (listKsonnetApps _ _ _ _ _ _) as [[kapps [e|]] stk logk|];
      cbn -[listHelmApps] in *;
      try (repeat constructor; try done;
           rewrite ?app_nil_r; apply Forall_app; by repeat constructor).
    pose proof (listHelmApps_at_revision s ctx repo (revision_of q)
                  repoClient stk) as Hh.
    destruct (listHelmApps _ _ _ _ _ _) as [[happs [e|]] sth logh|];
      cbn in *; repeat constructor; try done;
      rewrite ?app_nil_r, ?Forall_app; repeat split; try done;
      by repeat constructor.
  - intros Hq. unfold revision_of. by rewrite decide_True.
  - intros Hq. unfold revision_of. by rewrite decide_False.
  - intros repo st1 client kpaths hpaths. apply ListApps_fetched.
  - intros resp st' log Hrun.
    assert (∃ repo client kpaths hpaths,
              EnforceClaims (enf s) (Value ctx "claims")
                ["repositories/apps"; "get"; RepoAppsQuery_Repo q] = true
              ∧ (∃ st1, GetRepository (db s) ctx (RepoAppsQuery_Repo q) st
                        = ((repo, None), st1))
              ∧ NewRepositoryClient (repoClientset s) = (Some client, None)
              ∧ ListDir client ctx
                  (dir_request repo (revision_of q) "*app.yaml")
                = (Some {| FileList_Items := kpaths |}, None)
              ∧ ListDir client ctx
                  (dir_request repo (revision_of q) "*Chart.yaml")
                = (Some {| FileList_Items := hpaths |}, None)
              ∧ all_fetched client ctx repo (revision_of q)
                  (kpaths ++ hpaths))
      as (repo & client & kpaths & hpaths & Hallow & [st1 Hrepo] & Hclient
          & Hk & Hh & Hall).
    { revert Hrun. unfold ListApps.
      destruct (EnforceClaims _ _ _); simpl; [|done].
      unfold mbind, M_bind, mret, M_ret, call_db, call_out, defer.
      cbn -[listKsonnetApps listHelmApps].
      destruct (GetRepository _ _ _ _) as [[repo [e|]] st1]; [done|].
      destruct (NewRepositoryClient _) as [repoClient [e|]]; [done|].
      fold (revision_of q).
      destruct (listKsonnetApps _ _ _ _ _ _)
        as [[kapps [e|]] stk logk|] eqn:Hk; cbn -[listHelmApps]; try done.
      destruct (listHelmApps _ _ _ _ _ _)
        as [[happs [e|]] sth logh|] eqn:Hh; cbn; try done.
      intros _.
      destruct (listKsonnetApps_returned _ _ _ _ _ _ _ _ _ Hk)
        as (client & kpaths & -> & Hkdir & Hkall).
      destruct (listHelmApps_returned _ _ _ _ _ _ _ _ _ Hh)
        as (client' & hpaths & [= <-] & Hhdir & Hhall).
      exists repo, client, kpaths, hpaths.
      repeat split; try done; [by exists st1 | by apply Forall_app]. }
    rewrite (ListApps_fetched s ctx q st repo st1 client kpaths hpaths)
      in Hrun by done.
    injection Hrun as <- <- <-.
    by exists repo, client, kpaths, hpaths.
Qed.

End Properties.

(** ** Properties of the sync executor *)

Section SyncExecutorProperties.
Import SyncExecutor.
Implicit Types (ops : gmap nat SyncOperation) (e : Event).

Lemma running_for_intro ops i a :
  ops !! i = Some a → phase a = Running → running_for (application a) ops.
Proof. intros Hi Ha. by exists i, a. Qed.

(** A step keeps the operations exclusive. *)
Lemma step_exclusive ops e : exclusive ops → exclusive (step ops e).1.
Proof.
  intros Hex. destruct e as [id app|id|id result|id]; simpl.
  - destruct (ops !! id) eqn:Hid; [done|]. simpl.
    intros i j a b Hi Hj Ha Hb Hab.
    apply lookup_insert_Some in Hi as [[<- <-]|[? Hi]]; [done|].
    apply lookup_insert_Some in Hj as [[<- <-]|[? Hj]]; [done|].
    eauto.
  - destruct (ops !! id) as [[app []]|] eqn:Hid; try done.
    destruct (decide _) as [Hrun|Hrun]; simpl.
    + intros i j a b [? Hi]%lookup_delete_Some [? Hj]%lookup_delete_Some.
      eauto.
    + intros i j a b Hi Hj Ha Hb Hab.
      apply lookup_insert_Some in Hi as [[<- <-]|[? Hi]];
        apply lookup_insert_Some in Hj as [[<- <-]|[? Hj]]; try done.
      * destruct Hrun. simpl in Hab. rewrite Hab. by eapply running_for_intro.
      * destruct Hrun. simpl in Hab. rewrite <- Hab.
        by eapply running_for_intro.
      * eauto.
  - destruct (ops !! id) as [[app []]|] eqn:Hid; try done.
    case_bool_decide as Hres; [|done]. simpl.
    assert (result ≠ Running).
    { intros ->. revert Hres. rewrite !elem_of_cons, elem_of_nil.
      by intros [|[|[|]]]. }
    intros i j a b Hi Hj Ha Hb Hab.
    apply lookup_insert_Some in Hi as [[<- <-]|[? Hi]]; [done|].
    apply lookup_insert_Some in Hj as [[<- <-]|[? Hj]]; [done|].
    eauto.
  - destruct (ops !! id) as [[app []]|] eqn:Hid; try done. simpl.
    intros i j a b Hi Hj Ha Hb Hab.
    apply lookup_insert_Some in Hi as [[<- <-]|[? Hi]]; [done|].
    apply lookup_insert_Some in Hj as [[<- <-]|[? Hj]]; [done|].
    eauto.
Qed.

Lemma foldl_step_exclusive events ops :
  exclusive ops → exclusive (foldl (fun ops e => (step ops e).1) ops events).
Proof.
  revert ops. induction events as [|e events IH]; intros ops Hex; [done|].
  simpl. by apply IH, step_exclusive.
Qed.

(** C5.  After any sequence of requests, dispatches, completions and
    cancellations, in whatever order the executor takes them, no
    application has two operations [Running]; dispatching a pending
    operation of an application that has an operation [Running] is
    rejected and the operation is dropped, not queued; and of two pending
    operations of one application dispatched one after the other, the
    second is rejected. *)
Theorem at_most_one_sync_running (events : list Event) :
  exclusive (run events)
  ∧ (∀ i j a,
       run events !! i = Some a → phase a = Running →
       run events !! j
         = Some {| application := application a; phase := Pending |} →
       step (run events) (Dispatch j) = (delete j (run events), Rejected))
  ∧ (∀ i j app,
       i ≠ j →
       run events !! i = Some {| application := app; phase := Pending |} →
       run events !! j = Some {| application := app; phase := Pending |} →
       (step (step (run events) (Dispatch i)).1 (Dispatch j)).2 = Rejected).
Proof.
  split; [|split].
  - apply foldl_step_exclusive. intros i j a b Hi. by rewrite lookup_empty in Hi.
  - intros i j a Hi Ha Hj. simpl. rewrite Hj.
    rewrite decide_True; [done|]. by eapply running_for_intro.
  - intros i j app Hij Hi Hj. simpl. rewrite Hi.
    destruct (decide (running_for app (run events)))
      as [(k & c & Hk & Hc & Hph)|Hrun]; simpl.
    + rewrite lookup_delete_ne, Hj by done.
      rewrite decide_True; [done|].
      exists k, c. split; [|done].
      apply lookup_delete_Some. split; [|done].
      intros <-. rewrite Hi in Hk. by injection Hk as <-.
    + rewrite lookup_insert_ne, Hj by done.
      rewrite decide_True; [done|].
      exists i, {| application := app; phase := Running |}.
      split; [apply lookup_insert_eq|done].
Qed.

End SyncExecutorProperties.

(** ** Further properties of the handlers *)

Section Further.
Context `{External} {St : Type}.
Implicit Types (s : Server St) (ctx : Context) (st : St).

(** X1.  A [Create] or an [Update] request without a repository panics on
    the first line, before the capability is asked for: no call is made
    and the store is the one the handler started from. *)
Theorem request_without_repository_panics s ctx st :
  (∀ q, RepoCreateRequest_Repo q = None →
        Create s ctx q st = Panicked st [])
  ∧ (∀ q, RepoUpdateRequest_Repo q = None →
          Update s ctx q st = Panicked st []).
Proof.
  split; intros q Hq.
  - unfold Create. by rewrite Hq.
  - unfold Update. by rewrite Hq.
Qed.

Lemma Create_store_answer s ctx q st r repo err st1 :
  Create_reaches_store s ctx q r →
  CreateRepository (db s) ctx (marked_connected r) st = ((repo, err), st1) →
  status.Convert_Code err ≠ codes.AlreadyExists →
  Create s ctx q st =
  Returned (redact repo, err) st1
    [Create_test r; CallCreateRepository (marked_connected r)].
Proof.
  intros (Hq & Hallow & Htest) Hcreate Hcode.
  unfold Create. rewrite Hq. run. rewrite Hallow. simpl. rewrite Htest.
  fold (marked_connected r). rewrite Hcreate.
  by rewrite decide_False.
Qed.

(** X2.  When the store answers [CreateRepository] with anything but an
    [AlreadyExists] error, be it success or another error, [Create] hands
    the answer back as it is, the repository redacted: it makes no lookup
    and no update, its calls being the test and the create. *)
Theorem Create_hands_back_the_store_answer s ctx q st r repo err st1 :
  Create_reaches_store s ctx q r →
  CreateRepository (db s) ctx (marked_connected r) st = ((repo, err), st1) →
  status.Convert_Code err ≠ codes.AlreadyExists →
  Create s ctx q st =
  Returned (redact repo, err) st1
    [Create_test r; CallCreateRepository (marked_connected r)].
Proof.
  intros (Hq & Hallow & Htest) Hcreate Hcode.
  unfold Create. rewrite Hq. run. rewrite Hallow. simpl. rewrite Htest.
  fold (marked_connected r). rewrite Hcreate.
  by rewrite decide_False.
Qed.

(** X3.  The calls of [Create] are a beginning of: the connection test,
    the create, the lookup of the existing repository, the update; without
    [Upsert] the update is never reached.  So [Create] never deletes, asks
    the store to create at most once, and overwrites a repository only
    under [Upsert]. *)
Theorem Create_calls_in_order s ctx q r st :
  RepoCreateRequest_Repo q = Some r →
  call_log (Create s ctx q st)
    `prefix_of` Create_log (marked_connected r)
                ++ [CallUpdateRepository (marked_connected r)]
  ∧ (Upsert q = false →
     call_log (Create s ctx q st) `prefix_of` Create_log (marked_connected r)).
Proof.
  intros Hq. unfold Create, Update. rewrite Hq. run.
  fold (marked_connected r).
  destruct (EnforceClaims _ _ _); simpl;
    [|split; [|intros _]; apply prefix_nil].
  destruct (git_TestRepo _ _ _ _);
    [split; [|intros _]; by eexists|].
  destruct (CreateRepository _ _ _ _) as [[repo err] st1].
  destruct (decide _); [|split; [|intros _]; by eexists].
  destruct (GetRepository _ _ _ _) as [[[existing|] [getErr|]] st2];
    try (split; [|intros _]; by eexists).
  simpl. destruct (decide _); [split; [|intros _]; by eexists|].
  destruct (Upsert q); [|split; [|intros _]; by eexists].
  split; [|done]. simpl.
  destruct (EnforceClaims _ _ _); simpl; [|by eexists].
  destruct (UpdateRepository _ _ _ _) as [[repo' err'] st3]. by eexists.
Qed.

(** Two repositories are equal once their connection states are made
    equal exactly when they agree on the other four fields. *)
Lemma set_ConnectionState_eq (a b : Repository) (c : ConnectionState.t) :
  set_ConnectionState a c = set_ConnectionState b c ↔
  Repo a = Repo b ∧ Username a = Username b ∧ Password a = Password b
  ∧ SSHPrivateKey a = SSHPrivateKey b.
Proof.
  unfold set_ConnectionState. split.
  - by intros [= -> -> -> ->].
  - by intros (-> & -> & -> & ->).
Qed.

Lemma Create_meets_existing_marked s ctx q st r st1 :
  Create_meets_existing s ctx q st r st1 →
  set_ConnectionState r (ConnectionState r) = r
  ∧ ConnectionState.Status (ConnectionState r) = ConnectionStatusSuccessful.
Proof. by intros (r0 & repo & err & _ & _ & _ & -> & _). Qed.

(** X4.  An upsert that has to overwrite goes through the guard of
    [Update]: when the caller may create but not update the repository,
    [Create] returns the permission-denied error after the lookup and the
    store is not asked to update; when the caller may update, [Create]
    hands back what the store answers to the update, redacted. *)
Theorem Create_upsert_needs_the_update_capability s ctx q st r st1 existing
    st2 :
  Create_meets_existing s ctx q st r st1 →
  GetRepository (db s) ctx (Repo r) st1 = ((Some existing, None), st2) →
  set_ConnectionState existing (ConnectionState r) ≠ r →
  Upsert q = true →
  (EnforceClaims (enf s) (Value ctx "claims")
     ["repositories"; "update"; Repo r] = false →
   Create s ctx q st = Returned (None, ErrPermissionDenied) st2 (Create_log r))
  ∧ (∀ repo err st3,
       EnforceClaims (enf s) (Value ctx "claims")
         ["repositories"; "update"; Repo r] = true →
       UpdateRepository (db s) ctx r st2 = ((repo, err), st3) →
       Create s ctx q st =
       Returned (redact repo, err) st3
         (Create_log r ++ [CallUpdateRepository r])).
Proof.
  intros Hmeet Hget Hne Hup.
  rewrite (Create_at_existing _ _ _ _ _ _ Hmeet), Hget.
  rewrite decide_False, Hup by done.
  unfold Update. run. split.
  - by intros ->.
  - intros repo err st3 -> Hupd. simpl. by rewrite Hupd.
Qed.

(** X5.  The comparison of [Create] with the existing repository leaves
    the connection states out: when the existing repository has the URL,
    user name, password and key of the request, whatever its connection
    state, [Create] answers with the request, redacted and with the
    connection status [Successful] of the test it has just run, and asks
    the store for nothing after the lookup. *)
Theorem Create_compares_all_but_the_connection_state s ctx q st r st1
    existing st2 :
  Create_meets_existing s ctx q st r st1 →
  GetRepository (db s) ctx (Repo r) st1 = ((Some existing, None), st2) →
  Repo existing = Repo r → Username existing = Username r →
  Password existing = Password r → SSHPrivateKey existing = SSHPrivateKey r →
  Create s ctx q st = Returned (Some (blanked r), None) st2 (Create_log r)
  ∧ ConnectionState.Status (ConnectionState (blanked r))
    = ConnectionStatusSuccessful.
Proof.
  intros Hmeet Hget HR HU HP HK.
  destruct (Create_meets_existing_marked _ _ _ _ _ _ Hmeet) as [Hr Hs].
  split; [|done].
  rewrite (Create_at_existing _ _ _ _ _ _ Hmeet), Hget.
  assert (Heq : set_ConnectionState existing (ConnectionState r) = r).
  { rewrite <- Hr at 2. by apply set_ConnectionState_eq. }
  rewrite decide_True by done. by rewrite Heq.
Qed.

(** X6.  [Create] is idempotent over a store that hands back what it is
    given: if the store accepts the repository, refuses it from then on as
    existing and looks it up as it was stored, a second [Create] of the
    same request answers as the first did and leaves the store as the
    first left it. *)
Theorem Create_twice_answers_the_same s ctx q st r st1 refused err :
  Create_reaches_store s ctx q r →
  CreateRepository (db s) ctx (marked_connected r) st
    = ((Some (marked_connected r), None), st1) →
  CreateRepository (db s) ctx (marked_connected r) st1
    = ((refused, err), st1) →
  status.Convert_Code err = codes.AlreadyExists →
  GetRepository (db s) ctx (Repo r) st1
    = ((Some (marked_connected r), None), st1) →
  Create s ctx q st =
  Returned (Some (blanked (marked_connected r)), None) st1
    [Create_test r; CallCreateRepository (marked_connected r)]
  ∧ Create s ctx q st1 =
    Returned (Some (blanked (marked_connected r)), None) st1
      (Create_log (marked_connected r)).
Proof.
  intros Hreach Hfirst Hsecond Hcode Hget. split.
  - rewrite (Create_store_answer s ctx q st r _ _ _
               Hreach Hfirst); done.
  - destruct Hreach as (Hq & Hallow & Htest).
    assert (Hmeet : Create_meets_existing s ctx q st1 (marked_connected r) st1).
    { by exists r, refused, err. }
    rewrite (Create_at_existing _ _ _ _ _ _ Hmeet).
    change (Repo (marked_connected r)) with (Repo r). rewrite Hget.
    by rewrite decide_True.
Qed.

(** *** Calls and failures of the directory walks *)

Section WalkCalls.
Context {A : Type}
  (range : list string → list A → M St (list A * option error))
  (doc : string → option A)
  (client : RepositoryServiceClient) (ctx : Context)
  (repo : option Repository) (revision : string).
Hypothesis range_nil : ∀ acc st, range [] acc st = Returned (acc, None) st [].
Hypothesis range_cons : ∀ path paths acc st,
  range (path :: paths) acc st =
  match GetFile client ctx (file_request repo revision path) with
  | (_, Some e) =>
      Returned ([], Some e) st [CallGetFile (file_request repo revision path)]
  | (None, None) =>
      Panicked st [CallGetFile (file_request repo revision path)]
  | (Some _, None) =>
      after_calls [CallGetFile (file_request repo revision path)]
        (range paths (acc ++ option_list (doc path)) st)
  end.

(** A walk only fetches files of its repository at its revision. *)
Lemma walk_calls (P : Call → Prop) paths acc st :
  (∀ path, P (CallGetFile (file_request repo revision path))) →
  Forall P (call_log (range paths acc st)).
Proof.
  intros HP. revert acc. induction paths as [|path paths IH]; intros acc.
  - rewrite range_nil. constructor.
  - rewrite range_cons.
    destruct (GetFile _ _ _) as [[res|] [e|]]; simpl;
      try (by repeat constructor).
    specialize (IH (acc ++ option_list (doc path))).
    destruct (range paths _ st); simpl in *; by constructor.
Qed.

(** A walk stops at the first file that is not delivered: it returns the
    error and no document, and the later files are not asked for. *)
Lemma walk_fails pre path post acc st res e :
  all_fetched client ctx repo revision pre →
  GetFile client ctx (file_request repo revision path) = (res, Some e) →
  range (pre ++ path :: post) acc st =
  Returned ([], Some e) st (fetch_log repo revision (pre ++ [path])).
Proof.
  intros Hpre Hfail. revert acc.
  induction pre as [|p pre IH]; intros acc; simpl.
  - rewrite range_cons, Hfail. by destruct res.
  - apply Forall_cons in Hpre as [Hp Hpre].
    rewrite range_cons.
    unfold fetched in Hp.
    destruct (GetFile client ctx (file_request repo revision p))
      as [[r|] [e'|]]; try (by destruct Hp).
    by rewrite IH.
Qed.

End WalkCalls.

Lemma listKsonnetApps_calls (P : Call → Prop) s ctx repo revision repoClient
    st :
  P (CallListDir (dir_request repo revision "*app.yaml")) →
  (∀ path, P (CallGetFile (file_request repo revision path))) →
  Forall P (call_log (listKsonnetApps s ctx repo revision repoClient st)).
Proof.
  intros Hdir Hfile. unfold listKsonnetApps. run.
  destruct repoClient as [client|]; [|constructor].
  fold (dir_request repo revision "*app.yaml").
  destruct (ListDir _ _ _) as [[[paths]|] [e|]]; simpl;
    try (by repeat constructor).
  pose proof (walk_calls _ _ client ctx repo revision
                (fun _ _ => eq_refl)
                (listKsonnetApps_range_cons client ctx repo revision)
                P paths [] st Hfile) as Hw.
  destruct (listKsonnetApps_range _ _ _ _ _ _ _); simpl in *; by constructor.
Qed.

Lemma listHelmApps_calls (P : Call → Prop) s ctx repo revision repoClient st :
  P (CallListDir (dir_request repo revision "*Chart.yaml")) →
  (∀ path, P (CallGetFile (file_request repo revision path))) →
  Forall P (call_log (listHelmApps s ctx repo revision repoClient st)).
Proof.
  intros Hdir Hfile. unfold listHelmApps. run.
  destruct repoClient as [client|]; [|constructor].
  fold (dir_request repo revision "*Chart.yaml").
  destruct (ListDir _ _ _) as [[[paths]|] [e|]]; simpl;
    try (by repeat constructor).
  pose proof (walk_calls _ _ client ctx repo revision
                (fun _ _ => eq_refl)
                (listHelmApps_range_cons client ctx repo revision)
                P paths [] st Hfile) as Hw.
  destruct (listHelmApps_range _ _ _ _ _ _ _); simpl in *; by constructor.
Qed.

(** The log of [ListApps], path by path. *)
Lemma ListApps_log s ctx q st :
  call_log (ListApps s ctx q st) =
  if EnforceClaims (enf s) (Value ctx "claims")
       ["repositories/apps"; "get"; RepoAppsQuery_Repo q]
  then
    match GetRepository (db s) ctx (RepoAppsQuery_Repo q) st with
    | ((_, Some _), _) => [CallGetRepository (RepoAppsQuery_Repo q)]
    | ((repo, None), st1) =>
        match NewRepositoryClient (repoClientset s) with
        | (_, Some _) => ListApps_opening q
        | (repoClient, None) =>
            ListApps_opening q
            ++ ListApps_listing s ctx q repo repoClient st1 ++ [CallClose]
        end
    end
  else [].
Proof.
  unfold ListApps, ListApps_listing.
  destruct (EnforceClaims _ _ _); simpl; [|done].
  unfold mbind, M_bind, mret, M_ret, call_db, call_out, defer.
  cbn -[listKsonnetApps listHelmApps].
  destruct (GetRepository _ _ _ _) as [[repo [e|]] st1]; [done|].
  destruct (NewRepositoryClient _) as [repoClient [e|]]; [done|].
  fold (revision_of q).
  destruct (listKsonnetApps _ _ _ _ _ _) as [[kapps [e|]] stk logk|];
    cbn -[listHelmApps]; try by rewrite ?app_nil_r.
  destruct (listHelmApps _ _ _ _ _ _) as [[happs [e|]] sth logh|];
    cbn; by rewrite ?app_nil_r.
Qed.

Lemma ListApps_listing_calls (P : Call → Prop) s ctx q repo repoClient st :
  P (CallListDir (dir_request repo (revision_of q) "*app.yaml")) →
  P (CallListDir (dir_request repo (revision_of q) "*Chart.yaml")) →
  (∀ path, P (CallGetFile (file_request repo (revision_of q) path))) →
  Forall P (ListApps_listing s ctx q repo repoClient st).
Proof.
  intros Hk Hh Hfile. unfold ListApps_listing.
  pose proof (listKsonnetApps_calls P s ctx repo (revision_of q) repoClient st
                Hk Hfile) as Hlk.
  destruct (listKsonnetApps _ _ _ _ _ _) as [[kapps [e|]] stk logk|];
    try done.
  apply Forall_app. split; [done|].
  by apply listHelmApps_calls.
Qed.

(** What holds of the opening calls, of the closing call and of the
    requests to the repository service holds of every call of
    [ListApps]. *)
Lemma ListApps_calls (P : Call → Prop) s ctx q st :
  let repo := (GetRepository (db s) ctx (RepoAppsQuery_Repo q) st).1.1 in
  P (CallGetRepository (RepoAppsQuery_Repo q)) →
  P CallNewRepositoryClient →
  P CallClose →
  P (CallListDir (dir_request repo (revision_of q) "*app.yaml")) →
  P (CallListDir (dir_request repo (revision_of q) "*Chart.yaml")) →
  (∀ path, P (CallGetFile (file_request repo (revision_of q) path))) →
  Forall P (call_log (ListApps s ctx q st)).
Proof.
  intros repo Hget Hnew Hclose Hk Hh Hfile. rewrite ListApps_log.
  destruct (EnforceClaims _ _ _); [|constructor].
  subst repo.
  destruct (GetRepository _ _ _ _) as [[repo [e|]] st1]; simpl in *;
    [by repeat constructor|].
  destruct (NewRepositoryClient _) as [repoClient [e|]];
    [by repeat constructor|].
  unfold ListApps_opening. simpl. do 2 (constructor; [done|]).
  apply Forall_app. split.
  - by apply ListApps_listing_calls.
  - by repeat constructor.
Qed.

Lemma Get_let_through s ctx q st :
  EnforceClaims (enf s) (Value ctx "claims")
    ["repositories"; "get"; RepoQuery_Repo q] = true →
  Get s ctx q st =
  let '((repo, err), st') :=
    GetRepository (db s) ctx (RepoQuery_Repo q) st in
  Returned (redact repo, err) st' [CallGetRepository (RepoQuery_Repo q)].
Proof.
  intros Hallow. unfold Get. rewrite Hallow. run.
  by destruct (GetRepository _ _ _ _) as [[repo err] st'].
Qed.

Lemma blanked_shown s ctx (items : list Repository) repo :
  repo ∈ items →
  blanked repo ∈ blanked <$> filter (may_get s ctx) items ↔
  may_get s ctx repo = true.
Proof.
  intros Hin. rewrite list_elem_of_fmap. split.
  - intros (repo' & Heq & [Hmay _]%list_elem_of_filter).
    unfold may_get in *.
    assert (Repo repo = Repo repo') as -> by (by injection Heq).
    by destruct (EnforceClaims _ _ _).
  - intros Hmay. exists repo. split; [done|].
    apply list_elem_of_filter. split; [by rewrite Hmay|done].
Qed.

(** X7.  [List] and [Get] ask for the same capability: a repository of
    the store's listing is in the answer of [List] exactly when [Get] on
    its URL is let through to the store, and left out exactly when [Get]
    on its URL is refused. *)
Theorem List_shows_what_Get_is_let_through_for s ctx q st l err st1 :
  ListRepositories (db s) ctx st = ((Some l, err), st1) →
  ∃ shown,
    List s ctx q st =
    Returned (Some {| Items := shown |}, err) st1 [CallListRepositories]
    ∧ ∀ repo, repo ∈ Items l →
        (blanked repo ∈ shown ↔
         call_log (Get s ctx {| RepoQuery_Repo := Repo repo |} st)
         = [CallGetRepository (Repo repo)])
        ∧ (blanked repo ∉ shown ↔
           Get s ctx {| RepoQuery_Repo := Repo repo |} st
           = Returned (None, ErrPermissionDenied) st []).
Proof.
  intros Hlist. eexists. split.
  - rewrite List_unfold, Hlist. reflexivity.
  - intros repo Hin. rewrite (blanked_shown s ctx _ _ Hin).
    unfold may_get.
    destruct (EnforceClaims (enf s) (Value ctx "claims")
                ["repositories"; "get"; Repo repo]) eqn:Hallow.
    + rewrite (Get_let_through s ctx {| RepoQuery_Repo := Repo repo |} st)
        by done.
      simpl. destruct (GetRepository _ _ _ _) as [[r e] st'].
      by split; split.
    + unfold Get. simpl. rewrite Hallow. simpl. by split; split.
Qed.

(** X8.  The handlers that read, [List], [Get] and [ListApps], make no
    call that writes the store, whatever they are asked and however they
    end. *)
Theorem reading_handlers_do_not_write s ctx st :
  (∀ q, Forall (fun c => writes_store c = false) (call_log (List s ctx q st)))
  ∧ (∀ q, Forall (fun c => writes_store c = false)
            (call_log (Get s ctx q st)))
  ∧ (∀ q, Forall (fun c => writes_store c = false)
            (call_log (ListApps s ctx q st))).
Proof.
  split; [|split]; intros q.
  - rewrite List_unfold.
    destruct (ListRepositories _ _ _) as [[l err] st']. by repeat constructor.
  - unfold Get. destruct (EnforceClaims _ _ _); simpl; [|constructor].
    run. destruct (GetRepository _ _ _ _) as [[repo err] st'].
    by repeat constructor.
  - by apply ListApps_calls.
Qed.

(** X9.  [ListApps] closes the connection to the repository service once
    and last on every path on which it got one, also when a listing fails
    or the handler panics; it closes nothing when it is refused, when the
    repository is not found or when no client could be made. *)
Theorem ListApps_closes_the_connection_once s ctx q st :
  (∀ repo st1 repoClient,
     EnforceClaims (enf s) (Value ctx "claims")
       ["repositories/apps"; "get"; RepoAppsQuery_Repo q] = true →
     GetRepository (db s) ctx (RepoAppsQuery_Repo q) st
       = ((repo, None), st1) →
     NewRepositoryClient (repoClientset s) = (repoClient, None) →
     ∃ listing,
       call_log (ListApps s ctx q st)
       = ListApps_opening q ++ listing ++ [CallClose]
       ∧ Forall (fun c => is_Close c = false) listing)
  ∧ (CallClose ∈ call_log (ListApps s ctx q st) →
     EnforceClaims (enf s) (Value ctx "claims")
       ["repositories/apps"; "get"; RepoAppsQuery_Repo q] = true
     ∧ (GetRepository (db s) ctx (RepoAppsQuery_Repo q) st).1.2 = None
     ∧ (NewRepositoryClient (repoClientset s)).2 = None).
Proof.
  split.
  - intros repo st1 repoClient Hallow Hrepo Hclient.
    rewrite ListApps_log, Hallow, Hrepo, Hclient.
    eexists. split; [done|]. by apply ListApps_listing_calls.
  - rewrite ListApps_log.
    destruct (EnforceClaims _ _ _); [|by intros ?%elem_of_nil].
    destruct (GetRepository _ _ _ _) as [[repo [e|]] st1]; simpl.
    { by intros [=]%list_elem_of_singleton. }
    destruct (NewRepositoryClient _) as [repoClient [e|]]; simpl; [|done].
    unfold ListApps_opening. rewrite !elem_of_cons, elem_of_nil.
    by intros [|[|]].
Qed.

(** X13.  Every request [ListApps] sends to the repository service
    carries the repository as the store handed it out, credentials
    included, and the only patterns it lists are "*app.yaml" and
    "*Chart.yaml". *)
Theorem ListApps_requests_carry_the_stored_repository s ctx q st :
  Forall
    (fun c =>
       (∀ repo, call_repository c = Some repo →
          repo = (GetRepository (db s) ctx (RepoAppsQuery_Repo q) st).1.1)
       ∧ (∀ pattern, call_pattern c = Some pattern →
            pattern = "*app.yaml" ∨ pattern = "*Chart.yaml"))
    (call_log (ListApps s ctx q st)).
Proof.
  apply ListApps_calls; try (by split); split; intros ? [= <-]; auto.
Qed.

(** X14.  [Get], [Update] and [Delete], once let through, make one call
    to the store and hand its error back as it is.  [Update] stores the
    repository of the request as given, without a connection test, and
    [Delete] answers with a response also when the store fails. *)
Theorem single_call_handlers s ctx st :
  (∀ q,
     EnforceClaims (enf s) (Value ctx "claims")
       ["repositories"; "get"; RepoQuery_Repo q] = true →
     Get s ctx q st =
     let '((repo, err), st') :=
       GetRepository (db s) ctx (RepoQuery_Repo q) st in
     Returned (redact repo, err) st' [CallGetRepository (RepoQuery_Repo q)])
  ∧ (∀ q r,
       RepoUpdateRequest_Repo q = Some r →
       EnforceClaims (enf s) (Value ctx "claims")
         ["repositories"; "update"; Repo r] = true →
       Update s ctx q st =
       let '((repo, err), st') := UpdateRepository (db s) ctx r st in
       Returned (redact repo, err) st' [CallUpdateRepository r])
  ∧ (∀ q,
       EnforceClaims (enf s) (Value ctx "claims")
         ["repositories"; "delete"; RepoQuery_Repo q] = true →
       Delete s ctx q st =
       let '(err, st') := DeleteRepository (db s) ctx (RepoQuery_Repo q) st in
       Returned (Some Build_RepoResponse, err) st'
         [CallDeleteRepository (RepoQuery_Repo q)]).
Proof.
  split; [|split].
  - intros q. apply Get_let_through.
  - intros q r Hq Hallow. unfold Update. rewrite Hq. run. rewrite Hallow.
    simpl. by destruct (UpdateRepository _ _ _ _) as [[repo err] st'].
  - intros q Hallow. unfold Delete. rewrite Hallow. run.
    by destruct (DeleteRepository _ _ _ _) as [err st'].
Qed.

Lemma ListApps_served s ctx q st repo st1 client :
  ListApps_is_served s ctx q st repo st1 client →
  ListApps s ctx q st =
  match listKsonnetApps s ctx repo (revision_of q) (Some client) st1 with
  | Returned (ksonnetApps, Some e) stk logk =>
      Returned (None, Some e) stk (ListApps_opening q ++ logk ++ [CallClose])
  | Returned (ksonnetApps, None) stk logk =>
      match listHelmApps s ctx repo (revision_of q) (Some client) stk with
      | Returned (helmApps, Some e) sth logh =>
          Returned (None, Some e) sth
            (ListApps_opening q ++ logk ++ logh ++ [CallClose])
      | Returned (helmApps, None) sth logh =>
          Returned
            (Some {| KsonnetApps := ksonnetApps; HelmApps := helmApps |},
             None)
            sth (ListApps_opening q ++ logk ++ logh ++ [CallClose])
      | Panicked sth logh =>
          Panicked sth (ListApps_opening q ++ logk ++ logh ++ [CallClose])
      end
  | Panicked stk logk =>
      Panicked stk (ListApps_opening q ++ logk ++ [CallClose])
  end.
Proof.
  intros (Hallow & Hrepo & Hclient). unfold ListApps. rewrite Hallow.
  unfold mbind, M_bind, mret, M_ret, call_db, call_out, defer.
  cbn -[listKsonnetApps listHelmApps].
  rewrite Hrepo, Hclient. fold (revision_of q).
  destruct (listKsonnetApps _ _ _ _ _ _) as [[kapps [e|]] stk logk|];
    cbn -[listHelmApps]; try by rewrite ?app_nil_r.
  destruct (listHelmApps _ _ _ _ _ _) as [[happs [e|]] sth logh|];
    cbn; by rewrite ?app_nil_r, <- ?app_assoc.
Qed.

Lemma listKsonnetApps_unreadable s ctx repo revision client pre path post st
    res e :
  ListDir client ctx (dir_request repo revision "*app.yaml")
    = (Some {| FileList_Items := pre ++ path :: post |}, None) →
  all_fetched client ctx repo revision pre →
  GetFile client ctx (file_request repo revision path) = (res, Some e) →
  listKsonnetApps s ctx repo revision (Some client) st =
  Returned ([], Some e) st (walk_log repo revision "*app.yaml" (pre ++ [path])).
Proof.
  intros Hdir Hpre Hfail. unfold listKsonnetApps. run.
  fold (dir_request repo revision "*app.yaml"). rewrite Hdir. simpl.
  by rewrite (walk_fails _ _ client ctx repo revision
                (listKsonnetApps_range_cons client ctx repo revision)
                pre path post [] st res e Hpre Hfail).
Qed.

Lemma listHelmApps_unreadable s ctx repo revision client pre path post st
    res e :
  ListDir client ctx (dir_request repo revision "*Chart.yaml")
    = (Some {| FileList_Items := pre ++ path :: post |}, None) →
  all_fetched client ctx repo revision pre →
  GetFile client ctx (file_request repo revision path) = (res, Some e) →
  listHelmApps s ctx repo revision (Some client) st =
  Returned ([], Some e) st
    (walk_log repo revision "*Chart.yaml" (pre ++ [path])).
Proof.
  intros Hdir Hpre Hfail. unfold listHelmApps. run.
  fold (dir_request repo revision "*Chart.yaml"). rewrite Hdir. simpl.
  by rewrite (walk_fails _ _ client ctx repo revision
                (listHelmApps_range_cons client ctx repo revision)
                pre path post [] st res e Hpre Hfail).
Qed.

(** X10.  [ListApps], once let through, stops at the first collaborator
    that fails and hands its error back as it is: a failed lookup of the
    repository is its only call; when no client can be made nothing is
    listed and nothing closed; when the listing of the ksonnet documents
    fails the helm documents are not listed. *)
Theorem ListApps_stops_at_the_first_failure s ctx q st :
  EnforceClaims (enf s) (Value ctx "claims")
    ["repositories/apps"; "get"; RepoAppsQuery_Repo q] = true →
  (∀ repo e st1,
     GetRepository (db s) ctx (RepoAppsQuery_Repo q) st
       = ((repo, Some e), st1) →
     ListApps s ctx q st =
     Returned (None, Some e) st1 [CallGetRepository (RepoAppsQuery_Repo q)])
  ∧ (∀ repo st1 repoClient e,
       GetRepository (db s) ctx (RepoAppsQuery_Repo q) st
         = ((repo, None), st1) →
       NewRepositoryClient (repoClientset s) = (repoClient, Some e) →
       ListApps s ctx q st = Returned (None, Some e) st1 (ListApps_opening q))
  ∧ (∀ repo st1 client res e,
       GetRepository (db s) ctx (RepoAppsQuery_Repo q) st
         = ((repo, None), st1) →
       NewRepositoryClient (repoClientset s) = (Some client, None) →
       ListDir client ctx (dir_request repo (revision_of q) "*app.yaml")
         = (res, Some e) →
       ListApps s ctx q st =
       Returned (None, Some e) st1
         (ListApps_opening q
          ++ [CallListDir (dir_request repo (revision_of q) "*app.yaml");
              CallClose])).
Proof.
  intros Hallow. split; [|split].
  - intros repo e st1 Hrepo. unfold ListApps. rewrite Hallow. run.
    by rewrite Hrepo.
  - intros repo st1 repoClient e Hrepo Hclient.
    unfold ListApps. rewrite Hallow. run. by rewrite Hrepo, Hclient.
  - intros repo st1 client res e Hrepo Hclient Hdir.
    rewrite (ListApps_served s ctx q st repo st1 client) by done.
    unfold listKsonnetApps. run.
    fold (dir_request repo (revision_of q) "*app.yaml"). rewrite Hdir.
    by destruct res.
Qed.

(** X11.  One ksonnet document that the repository service does not
    deliver fails the whole of [ListApps]: it returns that error and no
    response, the documents listed after it are not fetched, and the helm
    documents are not listed; the connection is closed. *)
Theorem ListApps_fails_on_an_undelivered_ksonnet_file s ctx q st repo st1
    client pre path post res e :
  ListApps_is_served s ctx q st repo st1 client →
  ListDir client ctx (dir_request repo (revision_of q) "*app.yaml")
    = (Some {| FileList_Items := pre ++ path :: post |}, None) →
  all_fetched client ctx repo (revision_of q) pre →
  GetFile client ctx (file_request repo (revision_of q) path)
    = (res, Some e) →
  ListApps s ctx q st =
  Returned (None, Some e) st1
    (ListApps_opening q
     ++ walk_log repo (revision_of q) "*app.yaml" (pre ++ [path])
     ++ [CallClose]).
Proof.
  intros Hserved Hdir Hpre Hfail.
  rewrite (ListApps_served _ _ _ _ _ _ _ Hserved).
  by rewrite (listKsonnetApps_unreadable _ _ _ _ _ _ _ _ _ _ _
                Hdir Hpre Hfail).
Qed.

(** X12.  When the ksonnet documents are listed and fetched well and then
    the listing of the helm documents fails, or one helm document is not
    delivered, [ListApps] returns that error and no response: the ksonnet
    applications it has found are dropped. *)
Theorem ListApps_drops_the_ksonnet_apps_when_helm_fails s ctx q st repo st1
    client kpaths :
  ListApps_is_served s ctx q st repo st1 client →
  ListDir client ctx (dir_request repo (revision_of q) "*app.yaml")
    = (Some {| FileList_Items := kpaths |}, None) →
  all_fetched client ctx repo (revision_of q) kpaths →
  (∀ res e,
     ListDir client ctx (dir_request repo (revision_of q) "*Chart.yaml")
       = (res, Some e) →
     ListApps s ctx q st =
     Returned (None, Some e) st1
       (ListApps_opening q
        ++ walk_log repo (revision_of q) "*app.yaml" kpaths
        ++ [CallListDir (dir_request repo (revision_of q) "*Chart.yaml");
            CallClose]))
  ∧ (∀ pre path post res e,
       ListDir client ctx (dir_request repo (revision_of q) "*Chart.yaml")
         = (Some {| FileList_Items := pre ++ path :: post |}, None) →
       all_fetched client ctx repo (revision_of q) pre →
       GetFile client ctx (file_request repo (revision_of q) path)
         = (res, Some e) →
       ListApps s ctx q st =
       Returned (None, Some e) st1
         (ListApps_opening q
          ++ walk_log repo (revision_of q) "*app.yaml" kpaths
          ++ walk_log repo (revision_of q) "*Chart.yaml" (pre ++ [path])
          ++ [CallClose])).
Proof.
  intros Hserved Hk Hfk.
  pose proof (ListApps_served _ _ _ _ _ _ _ Hserved) as Hrun.
  rewrite (listKsonnetApps_fetched _ _ _ _ _ _ _ Hk Hfk) in Hrun.
  split.
  - intros res e Hdir. rewrite Hrun. unfold listHelmApps. run.
    fold (dir_request repo (revision_of q) "*Chart.yaml"). rewrite Hdir.
    by destruct res.
  - intros pre path post res e Hdir Hpre Hfail. rewrite Hrun.
    by rewrite (listHelmApps_unreadable _ _ _ _ _ _ _ _ _ _ _
                  Hdir Hpre Hfail).
Qed.

(** X15.  [redact] changes nothing but the two secrets: URL, user name
    and connection state are kept; redacting twice is redacting once; and
    a repository is left as it is exactly when its secrets are blank
    already. *)
Theorem redact_changes_only_the_secrets (repo : option Repository) :
  redact (redact repo) = redact repo
  ∧ Repo <$> redact repo = Repo <$> repo
  ∧ Username <$> redact repo = Username <$> repo
  ∧ ConnectionState <$> redact repo = ConnectionState <$> repo
  ∧ (∀ r, redact (Some r) = Some r ↔ is_redacted r).
Proof.
  split; [by destruct repo|]. split; [by destruct repo|].
  split; [by destruct repo|]. split; [by destruct repo|].
  intros [u n p k c]. unfold is_redacted. simpl. split.
  - by intros [= <- <-].
  - by intros [-> ->].
Qed.

End Further.

(** ** The properties at concrete requests *)

#[local] Existing Instance Fixture.ext.

(** C1 at a caller without any capability. *)
Lemma denied_capability_is_refused_witness :
  let s := Fixture.server Fixture.memdb Fixture.admin_policy in
  let ctx := Fixture.ctx_of "guest" in
  let st := Fixture.store_a in
  Create s ctx
    {| RepoCreateRequest_Repo := Some Fixture.repo_a; Upsert := true |} st
  = Returned (None, ErrPermissionDenied) st []
  ∧ Update s ctx {| RepoUpdateRequest_Repo := Some Fixture.repo_a |} st
    = Returned (None, ErrPermissionDenied) st []
  ∧ Delete s ctx {| RepoQuery_Repo := "https://example.com/a.git" |} st
    = Returned (None, ErrPermissionDenied) st []
  ∧ Get s ctx {| RepoQuery_Repo := "https://example.com/a.git" |} st
    = Returned (None, ErrPermissionDenied) st []
  ∧ ListApps s ctx
      {| RepoAppsQuery_Repo := "https://example.com/a.git";
         Revision := "" |} st
    = Returned (None, ErrPermissionDenied) st [].
Proof.
  intros s ctx st.
  destruct (denied_capability_is_refused s ctx st)
    as (HC & HU & HD & HG & HL & _).
  split; [|split; [|split; [|split]]].
  - apply (HC _ Fixture.repo_a); reflexivity.
  - apply (HU _ Fixture.repo_a); reflexivity.
  - apply HD; reflexivity.
  - apply HG; reflexivity.
  - apply HL; reflexivity.
Defined.

(** C3 fails as stated: the store holds a repository the caller may not
    get, and [List] does not answer with the permission-denied error. *)
Lemma List_hides_without_error :
  ¬ List_denies_when_hidden
      (Fixture.server Fixture.memdb Fixture.admin_policy)
      (Fixture.ctx_of "guest") {| RepoQuery_Repo := "" |} Fixture.store_a.
Proof.
  intros Hclaim.
  destruct (Hclaim {| Items := [Fixture.repo_a_stored] |} None
              Fixture.store_a Fixture.repo_a_stored)
    as (res & st' & log & Hrun).
  - reflexivity.
  - by left.
  - reflexivity.
  - by vm_compute in Hrun.
Qed.

(** What [List] answers there: an empty list and no error. *)
Example guest_is_answered_an_empty_list :
  List (Fixture.server Fixture.memdb Fixture.admin_policy)
    (Fixture.ctx_of "guest") {| RepoQuery_Repo := "" |} Fixture.store_a
  = Returned (Some {| Items := [] |}, None) Fixture.store_a
      [CallListRepositories].
Proof. reflexivity. Qed.

(** The administrator creates [repo_a] while the store holds a repository
    of that URL: the premise shared by C4 and C9, by evaluation. *)
Ltac meets_existing :=
  exists Fixture.repo_a, None,
    (Some (StatusError codes.AlreadyExists "repository already exists"));
  repeat split.


(** C9 on a store whose lookups fail. *)
Lemma Create_lookup_failure_keeps_cause_witness :
  ∃ e,
    Create (Fixture.server Fixture.memdb_unreadable Fixture.admin_policy)
      (Fixture.ctx_of "admin")
      {| RepoCreateRequest_Repo := Some Fixture.repo_a; Upsert := false |}
      Fixture.store_a_old
    = Returned (None, Some e) Fixture.store_a_old
        (Create_log Fixture.repo_a_stored)
    ∧ status.Convert_Code (Some e) = codes.Internal
    ∧ e = StatusError codes.Internal
            ("unable to check existing repository details: "
             +:+ Error (PlainError "connection refused"))
    ∧ retains_cause (Error e) (Error (PlainError "connection refused")).
Proof.
  apply (Create_lookup_failure_keeps_cause
           (Fixture.server Fixture.memdb_unreadable Fixture.admin_policy)
           (Fixture.ctx_of "admin")
           {| RepoCreateRequest_Repo := Some Fixture.repo_a; Upsert := false |}
           Fixture.store_a_old Fixture.repo_a_stored Fixture.store_a_old
           None (PlainError "connection refused") Fixture.store_a_old).
  - meets_existing.
  - reflexivity.
Defined.


(** C5 on two requests for one application. *)
Lemma at_most_one_sync_running_witness :
  let events :=
    [SyncExecutor.Request 1 "guestbook"; SyncExecutor.Request 2 "guestbook";
     SyncExecutor.Dispatch 1] in
  SyncExecutor.step (SyncExecutor.run events) (SyncExecutor.Dispatch 2)
  = (delete 2 (SyncExecutor.run events), SyncExecutor.Rejected)
  ∧ (SyncExecutor.step
       (SyncExecutor.step
          (SyncExecutor.run
             [SyncExecutor.Request 1 "guestbook";
              SyncExecutor.Request 2 "guestbook"])
          (SyncExecutor.Dispatch 2)).1
       (SyncExecutor.Dispatch 1)).2
    = SyncExecutor.Rejected.
Proof.
  intros events. split.
  - apply (proj1 (proj2 (at_most_one_sync_running events)) 1 2
             {| SyncExecutor.application := "guestbook";
                SyncExecutor.phase := SyncExecutor.Running |});
      reflexivity.
  - apply (proj2 (proj2 (at_most_one_sync_running
                           [SyncExecutor.Request 1 "guestbook";
                            SyncExecutor.Request 2 "guestbook"]))
             2 1 "guestbook"); [lia | reflexivity | reflexivity].
Defined.

(** C6 on a repository with malformed, nameless and environment-less
    documents among usable ones. *)
Lemma ListApps_skips_unusable_documents_witness :
  let s := Fixture.server Fixture.memdb Fixture.admin_policy in
  let ctx := Fixture.ctx_of "admin" in
  let q := {| RepoAppsQuery_Repo := "https://example.com/a.git";
              Revision := "" |} in
  let client := Fixture.client Fixture.dirs Fixture.files in
  let repo := Some Fixture.repo_a_stored in
  ∃ resp,
    ListApps s ctx q Fixture.store_a =
    Returned (Some resp, None) Fixture.store_a
      ([CallGetRepository "https://example.com/a.git";
        CallNewRepositoryClient]
       ++ walk_log repo "HEAD" "*app.yaml" Fixture.ksonnet_paths
       ++ walk_log repo "HEAD" "*Chart.yaml" Fixture.helm_paths
       ++ [CallClose])
    ∧ (∀ appSpec, appSpec ∈ HelmApps resp ↔
         ∃ path data,
           path ∈ Fixture.helm_paths
           ∧ fetched client ctx repo "HEAD" path = Some data
           ∧ yaml_Unmarshal_HelmAppSpec data
               {| HelmAppSpec_Name := ""; HelmAppSpec_Path := path;
                  ValueFiles := [] |} = (appSpec, None)
           ∧ HelmAppSpec_Name appSpec ≠ "")
    ∧ (∀ appSpec, appSpec ∈ KsonnetApps resp ↔
         ∃ path data,
           path ∈ Fixture.ksonnet_paths
           ∧ fetched client ctx repo "HEAD" path = Some data
           ∧ yaml_Unmarshal_KsonnetAppSpec data
               {| KsonnetAppSpec_Name := ""; KsonnetAppSpec_Path := path;
                  Environments := ∅ |} = (appSpec, None)
           ∧ KsonnetAppSpec_Name appSpec ≠ ""
           ∧ Environments appSpec ≠ ∅).
Proof.
  intros s ctx q client repo.
  apply (ListApps_skips_unusable_documents s ctx q Fixture.store_a repo
           Fixture.store_a client Fixture.ksonnet_paths Fixture.helm_paths).
  - reflexivity.
  - reflexivity.
  - reflexivity.
  - reflexivity.
  - reflexivity.
  - unfold all_fetched. simpl. repeat constructor; by eexists.
Defined.

(** The names [ListApps] answers with there, in the order of the paths. *)
Example sample_listing_names :
  match
    ListApps (Fixture.server Fixture.memdb Fixture.admin_policy)
      (Fixture.ctx_of "admin")
      {| RepoAppsQuery_Repo := "https://example.com/a.git"; Revision := "" |}
      Fixture.store_a
  with
  | Returned (Some resp, None) _ _ =>
      KsonnetAppSpec_Name <$> KsonnetApps resp = ["guestbook"]
      ∧ HelmAppSpec_Name <$> HelmApps resp = ["redis"; "nginx"]
  | _ => False
  end.
Proof. by vm_compute. Qed.

(** C8 on the same repository, at a query without revision: the
    response [ListApps] gives, and what lies behind it. *)
Lemma ListApps_keeps_the_listing_order_witness :
  let s := Fixture.server Fixture.memdb Fixture.admin_policy in
  let ctx := Fixture.ctx_of "admin" in
  let q := {| RepoAppsQuery_Repo := "https://example.com/a.git";
              Revision := "" |} in
  let client := Fixture.client Fixture.dirs Fixture.files in
  let repo := Some Fixture.repo_a_stored in
  let resp :=
    {| KsonnetApps :=
         omap (ksonnet_document client ctx repo "HEAD") Fixture.ksonnet_paths;
       HelmApps :=
         omap (helm_document client ctx repo "HEAD") Fixture.helm_paths |} in
  let log :=
    [CallGetRepository "https://example.com/a.git"; CallNewRepositoryClient]
    ++ walk_log repo "HEAD" "*app.yaml" Fixture.ksonnet_paths
    ++ walk_log repo "HEAD" "*Chart.yaml" Fixture.helm_paths
    ++ [CallClose] in
  revision_of q = "HEAD"
  ∧ ListApps s ctx q Fixture.store_a
    = Returned (Some resp, None) Fixture.store_a log
  ∧ ∃ repo' client' kpaths hpaths,
      EnforceClaims (enf s) (Value ctx "claims")
        ["repositories/apps"; "get"; "https://example.com/a.git"] = true
      ∧ GetRepository (db s) ctx "https://example.com/a.git" Fixture.store_a
        = ((repo', None), Fixture.store_a)
      ∧ NewRepositoryClient (repoClientset s) = (Some client', None)
      ∧ ListDir client' ctx (dir_request repo' (revision_of q) "*app.yaml")
        = (Some {| FileList_Items := kpaths |}, None)
      ∧ ListDir client' ctx (dir_request repo' (revision_of q) "*Chart.yaml")
        = (Some {| FileList_Items := hpaths |}, None)
      ∧ all_fetched client' ctx repo' (revision_of q) (kpaths ++ hpaths)
      ∧ KsonnetApps resp
        = omap (ksonnet_document client' ctx repo' (revision_of q)) kpaths
      ∧ HelmApps resp
        = omap (helm_document client' ctx repo' (revision_of q)) hpaths
      ∧ log
        = [CallGetRepository "https://example.com/a.git";
           CallNewRepositoryClient]
          ++ walk_log repo' (revision_of q) "*app.yaml" kpaths
          ++ walk_log repo' (revision_of q) "*Chart.yaml" hpaths
          ++ [CallClose].
Proof.
  intros s ctx q client repo resp log.
  destruct (ListApps_keeps_the_listing_order s ctx q Fixture.store_a)
    as (_ & Hhead & _ & Hforward & Hbehind).
  assert (Hrun : ListApps s ctx q Fixture.store_a
                 = Returned (Some resp, None) Fixture.store_a log).
  { apply (Hforward repo Fixture.store_a client Fixture.ksonnet_paths
             Fixture.helm_paths).
    - reflexivity.
    - reflexivity.
    - reflexivity.
    - reflexivity.
    - reflexivity.
    - unfold all_fetched. simpl. repeat constructor; by eexists. }
  split; [apply Hhead; reflexivity|].
  split; [exact Hrun|].
  exact (Hbehind resp Fixture.store_a log Hrun).
Defined.

(** The order there: the listing names the usable helm documents redis
    first and nginx last, and so does the response. *)
Example sample_listing_order :
  let client := Fixture.client Fixture.dirs Fixture.files in
  let ctx := Fixture.ctx_of "admin" in
  let repo := Some Fixture.repo_a_stored in
  HelmAppSpec_Path
    <$> omap (helm_document client ctx repo "HEAD") Fixture.helm_paths
  = ["redis/Chart.yaml"; "nginx/Chart.yaml"]
  ∧ KsonnetAppSpec_Path
      <$> omap (ksonnet_document client ctx repo "HEAD")
            Fixture.ksonnet_paths
    = ["guestbook/app.yaml"].
Proof. by vm_compute. Qed.

(** ** The further properties at concrete requests *)

(** X1 at requests of the administrator that carry no repository. *)
Lemma request_without_repository_panics_witness :
  let s := Fixture.server Fixture.memdb Fixture.admin_policy in
  let ctx := Fixture.ctx_of "admin" in
  Create s ctx {| RepoCreateRequest_Repo := None; Upsert := true |}
    Fixture.store_a
  = Panicked Fixture.store_a []
  ∧ Update s ctx {| RepoUpdateRequest_Repo := None |} Fixture.store_a
    = Panicked Fixture.store_a [].
Proof.
  intros s ctx.
  destruct (request_without_repository_panics s ctx Fixture.store_a)
    as [HC HU].
  split; [apply HC | apply HU]; reflexivity.
Defined.

(** X2 at the creation of [repo_a] in an empty store. *)
Lemma Create_hands_back_the_store_answer_witness :
  Create (Fixture.server Fixture.memdb Fixture.admin_policy)
    (Fixture.ctx_of "admin")
    {| RepoCreateRequest_Repo := Some Fixture.repo_a; Upsert := false |} ∅
  = Returned (redact (Some Fixture.repo_a_stored), None) Fixture.store_a
      [Create_test Fixture.repo_a;
       CallCreateRepository (marked_connected Fixture.repo_a)].
Proof.
  apply (Create_hands_back_the_store_answer
           (Fixture.server Fixture.memdb Fixture.admin_policy)
           (Fixture.ctx_of "admin")
           {| RepoCreateRequest_Repo := Some Fixture.repo_a;
              Upsert := false |}
           ∅ Fixture.repo_a (Some Fixture.repo_a_stored) None
           Fixture.store_a).
  - repeat split.
  - reflexivity.
  - simpl. discriminate.
Defined.

(** X3 at a request without [Upsert] that meets another password. *)
Lemma Create_calls_in_order_witness :
  let o :=
    Create (Fixture.server Fixture.memdb Fixture.admin_policy)
      (Fixture.ctx_of "admin")
      {| RepoCreateRequest_Repo := Some Fixture.repo_a; Upsert := false |}
      Fixture.store_a_old in
  call_log o
    `prefix_of` Create_log (marked_connected Fixture.repo_a)
                ++ [CallUpdateRepository (marked_connected Fixture.repo_a)]
  ∧ call_log o `prefix_of` Create_log (marked_connected Fixture.repo_a).
Proof.
  intros o.
  destruct (Create_calls_in_order
              (Fixture.server Fixture.memdb Fixture.admin_policy)
              (Fixture.ctx_of "admin")
              {| RepoCreateRequest_Repo := Some Fixture.repo_a;
                 Upsert := false |}
              Fixture.repo_a Fixture.store_a_old)
    as [Hall Hnoupsert]; [reflexivity|].
  split; [exact Hall | apply Hnoupsert; reflexivity].
Defined.

(** X4 at an upsert over another password, by a caller that may only
    create and by the administrator. *)
Lemma Create_upsert_needs_the_update_capability_witness :
  let q := {| RepoCreateRequest_Repo := Some Fixture.repo_a;
              Upsert := true |} in
  Create (Fixture.server Fixture.memdb Samples.creator_policy)
    (Fixture.ctx_of "creator") q Fixture.store_a_old
  = Returned (None, ErrPermissionDenied) Fixture.store_a_old
      (Create_log Fixture.repo_a_stored)
  ∧ Create (Fixture.server Fixture.memdb Fixture.admin_policy)
      (Fixture.ctx_of "admin") q Fixture.store_a_old
    = Returned (redact (Some Fixture.repo_a_stored), None) Fixture.store_a
        (Create_log Fixture.repo_a_stored
         ++ [CallUpdateRepository Fixture.repo_a_stored]).
Proof.
  intros q. split.
  - apply (proj1 (Create_upsert_needs_the_update_capability
                    (Fixture.server Fixture.memdb Samples.creator_policy)
                    (Fixture.ctx_of "creator") q Fixture.store_a_old
                    Fixture.repo_a_stored Fixture.store_a_old
                    Fixture.repo_a_old Fixture.store_a_old
                    ltac:(meets_existing) eq_refl ltac:(by vm_compute)
                    eq_refl)).
    reflexivity.
  - apply (proj2 (Create_upsert_needs_the_update_capability
                    (Fixture.server Fixture.memdb Fixture.admin_policy)
                    (Fixture.ctx_of "admin") q Fixture.store_a_old
                    Fixture.repo_a_stored Fixture.store_a_old
                    Fixture.repo_a_old Fixture.store_a_old
                    ltac:(meets_existing) eq_refl ltac:(by vm_compute)
                    eq_refl)).
    + reflexivity.
    + reflexivity.
Defined.

(** X5 at a stored repository whose connection has failed. *)
Lemma Create_compares_all_but_the_connection_state_witness :
  Create (Fixture.server Fixture.memdb Fixture.admin_policy)
    (Fixture.ctx_of "admin")
    {| RepoCreateRequest_Repo := Some Fixture.repo_a; Upsert := false |}
    Fixture.store_a_failed
  = Returned (Some (blanked Fixture.repo_a_stored), None)
      Fixture.store_a_failed (Create_log Fixture.repo_a_stored)
  ∧ ConnectionState.Status (ConnectionState (blanked Fixture.repo_a_stored))
    = ConnectionStatusSuccessful.
Proof.
  apply (Create_compares_all_but_the_connection_state
           (Fixture.server Fixture.memdb Fixture.admin_policy)
           (Fixture.ctx_of "admin")
           {| RepoCreateRequest_Repo := Some Fixture.repo_a;
              Upsert := false |}
           Fixture.store_a_failed Fixture.repo_a_stored
           Fixture.store_a_failed Fixture.repo_a_failed
           Fixture.store_a_failed);
    [meets_existing | reflexivity ..].
Defined.

(** X6 at two creations of [repo_a], the first in an empty store. *)
Lemma Create_twice_answers_the_same_witness :
  let s := Fixture.server Fixture.memdb Fixture.admin_policy in
  let ctx := Fixture.ctx_of "admin" in
  let q := {| RepoCreateRequest_Repo := Some Fixture.repo_a;
              Upsert := false |} in
  Create s ctx q ∅ =
  Returned (Some (blanked (marked_connected Fixture.repo_a)), None)
    Fixture.store_a
    [Create_test Fixture.repo_a;
     CallCreateRepository (marked_connected Fixture.repo_a)]
  ∧ Create s ctx q Fixture.store_a =
    Returned (Some (blanked (marked_connected Fixture.repo_a)), None)
      Fixture.store_a (Create_log (marked_connected Fixture.repo_a)).
Proof.
  intros s ctx q.
  apply (Create_twice_answers_the_same s ctx q ∅ Fixture.repo_a
           Fixture.store_a None
           (Some (StatusError codes.AlreadyExists
                    "repository already exists"))).
  - repeat split.
  - reflexivity.
  - reflexivity.
  - reflexivity.
  - reflexivity.
Defined.

(** X7 at the administrator's listing of a store that holds [repo_a]. *)
Lemma List_shows_what_Get_is_let_through_for_witness :
  let s := Fixture.server Fixture.memdb Fixture.admin_policy in
  let ctx := Fixture.ctx_of "admin" in
  ∃ shown,
    List s ctx {| RepoQuery_Repo := "" |} Fixture.store_a =
    Returned (Some {| Items := shown |}, None) Fixture.store_a
      [CallListRepositories]
    ∧ ∀ repo, repo ∈ [Fixture.repo_a_stored] →
        (blanked repo ∈ shown ↔
         call_log (Get s ctx {| RepoQuery_Repo := Repo repo |}
                     Fixture.store_a)
         = [CallGetRepository (Repo repo)])
        ∧ (blanked repo ∉ shown ↔
           Get s ctx {| RepoQuery_Repo := Repo repo |} Fixture.store_a
           = Returned (None, ErrPermissionDenied) Fixture.store_a []).
Proof.
  intros s ctx.
  apply (List_shows_what_Get_is_let_through_for s ctx
           {| RepoQuery_Repo := "" |} Fixture.store_a
           {| Items := [Fixture.repo_a_stored] |} None Fixture.store_a).
  reflexivity.
Defined.

(** X9 at a listing that is served, and read back from its log. *)
Lemma ListApps_closes_the_connection_once_witness :
  let s := Fixture.server Fixture.memdb Fixture.admin_policy in
  let ctx := Fixture.ctx_of "admin" in
  let log := call_log (ListApps s ctx Samples.apps_query Fixture.store_a) in
  (∃ listing,
     log = ListApps_opening Samples.apps_query ++ listing ++ [CallClose]
     ∧ Forall (fun c => is_Close c = false) listing)
  ∧ EnforceClaims (enf s) (Value ctx "claims")
      ["repositories/apps"; "get"; "https://example.com/a.git"] = true
  ∧ (GetRepository (db s) ctx "https://example.com/a.git"
       Fixture.store_a).1.2 = None
  ∧ (NewRepositoryClient (repoClientset s)).2 = None.
Proof.
  intros s ctx log.
  destruct (ListApps_closes_the_connection_once s ctx Samples.apps_query
              Fixture.store_a) as [Hserved Hclosed].
  split.
  - apply (Hserved (Some Fixture.repo_a_stored) Fixture.store_a
             (Some (Fixture.client Fixture.dirs Fixture.files)));
      reflexivity.
  - apply Hclosed. vm_compute.
    repeat first [apply list_elem_of_here | apply list_elem_of_further].
Defined.

(** X10 at a repository the store does not hold, at a clientset that is
    down and at a repository service that cannot list ksonnet documents. *)
Lemma ListApps_stops_at_the_first_failure_witness :
  let ctx := Fixture.ctx_of "admin" in
  let q := Samples.apps_query in
  ListApps (Fixture.server Fixture.memdb Fixture.admin_policy) ctx q ∅
  = Returned (None, Some (StatusError codes.NotFound "repo not found")) ∅
      [CallGetRepository "https://example.com/a.git"]
  ∧ ListApps (Samples.server_with Samples.clientset_down) ctx q
      Fixture.store_a
    = Returned (None, Some (PlainError "dial failed")) Fixture.store_a
        (ListApps_opening q)
  ∧ ListApps
      (Samples.server_with
         {| NewRepositoryClient :=
              (Some (Samples.client_without "*app.yaml"), None) |})
      ctx q Fixture.store_a
    = Returned
        (None, Some (StatusError codes.Unavailable "listing failed"))
        Fixture.store_a
        (ListApps_opening q
         ++ [CallListDir
               (dir_request (Some Fixture.repo_a_stored) "v1" "*app.yaml");
             CallClose]).
Proof.
  intros ctx q. split; [|split].
  - apply (proj1 (ListApps_stops_at_the_first_failure
                    (Fixture.server Fixture.memdb Fixture.admin_policy)
                    ctx q ∅ eq_refl) None);
      reflexivity.
  - apply (proj1 (proj2 (ListApps_stops_at_the_first_failure
                           (Samples.server_with Samples.clientset_down)
                           ctx q Fixture.store_a eq_refl))
             (Some Fixture.repo_a_stored) Fixture.store_a None);
      reflexivity.
  - apply (proj2 (proj2 (ListApps_stops_at_the_first_failure
                           (Samples.server_with
                              {| NewRepositoryClient :=
                                   (Some (Samples.client_without "*app.yaml"),
                                    None) |})
                           ctx q Fixture.store_a eq_refl))
             (Some Fixture.repo_a_stored) Fixture.store_a
             (Samples.client_without "*app.yaml") None);
      reflexivity.
Defined.

(** X11 at a listing whose second ksonnet document is not held. *)
Lemma ListApps_fails_on_an_undelivered_ksonnet_file_witness :
  ListApps
    (Samples.server_with
       (Fixture.clientset Samples.dirs_lost_ksonnet Fixture.files))
    (Fixture.ctx_of "admin") Samples.apps_query Fixture.store_a
  = Returned (None, Some (StatusError codes.NotFound "file not found"))
      Fixture.store_a
      (ListApps_opening Samples.apps_query
       ++ walk_log (Some Fixture.repo_a_stored) "v1" "*app.yaml"
            (["guestbook/app.yaml"] ++ ["lost/app.yaml"])
       ++ [CallClose]).
Proof.
  apply (ListApps_fails_on_an_undelivered_ksonnet_file
           (Samples.server_with
              (Fixture.clientset Samples.dirs_lost_ksonnet Fixture.files))
           (Fixture.ctx_of "admin") Samples.apps_query Fixture.store_a
           (Some Fixture.repo_a_stored) Fixture.store_a
           (Fixture.client Samples.dirs_lost_ksonnet Fixture.files)
           ["guestbook/app.yaml"] "lost/app.yaml" ["bare/app.yaml"] None).
  - repeat split.
  - reflexivity.
  - unfold all_fetched. simpl. repeat constructor; by eexists.
  - reflexivity.
Defined.

(** X12 at a repository service that cannot list helm documents and at a
    listing whose second helm document is not held. *)
Lemma ListApps_drops_the_ksonnet_apps_when_helm_fails_witness :
  let ctx := Fixture.ctx_of "admin" in
  let q := Samples.apps_query in
  let repo := Some Fixture.repo_a_stored in
  ListApps
    (Samples.server_with
       {| NewRepositoryClient :=
            (Some (Samples.client_without "*Chart.yaml"), None) |})
    ctx q Fixture.store_a
  = Returned (None, Some (StatusError codes.Unavailable "listing failed"))
      Fixture.store_a
      (ListApps_opening q
       ++ walk_log repo "v1" "*app.yaml" Fixture.ksonnet_paths
       ++ [CallListDir (dir_request repo "v1" "*Chart.yaml"); CallClose])
  ∧ ListApps
      (Samples.server_with
         (Fixture.clientset Samples.dirs_lost_helm Fixture.files))
      ctx q Fixture.store_a
    = Returned (None, Some (StatusError codes.NotFound "file not found"))
        Fixture.store_a
        (ListApps_opening q
         ++ walk_log repo "v1" "*app.yaml" Fixture.ksonnet_paths
         ++ walk_log repo "v1" "*Chart.yaml"
              (["redis/Chart.yaml"] ++ ["lost/Chart.yaml"])
         ++ [CallClose]).
Proof.
  intros ctx q repo. split.
  - assert (Hfetched : all_fetched (Samples.client_without "*Chart.yaml") ctx
                         repo (revision_of q) Fixture.ksonnet_paths).
    { unfold all_fetched. simpl. repeat constructor; by eexists. }
    apply (proj1 (ListApps_drops_the_ksonnet_apps_when_helm_fails
                    (Samples.server_with
                       {| NewRepositoryClient :=
                            (Some (Samples.client_without "*Chart.yaml"),
                             None) |})
                    ctx q Fixture.store_a repo Fixture.store_a
                    (Samples.client_without "*Chart.yaml")
                    Fixture.ksonnet_paths
                    ltac:(repeat split) eq_refl Hfetched) None).
    reflexivity.
  - assert (Hfetched : all_fetched
                         (Fixture.client Samples.dirs_lost_helm Fixture.files)
                         ctx repo (revision_of q) Fixture.ksonnet_paths).
    { unfold all_fetched. simpl. repeat constructor; by eexists. }
    apply (proj2 (ListApps_drops_the_ksonnet_apps_when_helm_fails
                    (Samples.server_with
                       (Fixture.clientset Samples.dirs_lost_helm
                          Fixture.files))
                    ctx q Fixture.store_a repo Fixture.store_a
                    (Fixture.client Samples.dirs_lost_helm Fixture.files)
                    Fixture.ksonnet_paths
                    ltac:(repeat split) eq_refl Hfetched)
             ["redis/Chart.yaml"] "lost/Chart.yaml" ["nginx/Chart.yaml"]
             None).
    + reflexivity.
    + unfold all_fetched. simpl. repeat constructor; by eexists.
    + reflexivity.
Defined.

(** X14 at the administrator's requests on a store that holds [repo_a]. *)
Lemma single_call_handlers_witness :
  let s := Fixture.server Fixture.memdb Fixture.admin_policy in
  let ctx := Fixture.ctx_of "admin" in
  Get s ctx {| RepoQuery_Repo := "https://example.com/a.git" |}
    Fixture.store_a
  = Returned (redact (Some Fixture.repo_a_stored), None) Fixture.store_a
      [CallGetRepository "https://example.com/a.git"]
  ∧ Update s ctx {| RepoUpdateRequest_Repo := Some Fixture.repo_a_old |}
      Fixture.store_a
    = Returned (redact (Some Fixture.repo_a_old), None) Fixture.store_a_old
        [CallUpdateRepository Fixture.repo_a_old]
  ∧ Delete s ctx {| RepoQuery_Repo := "https://example.com/a.git" |}
      Fixture.store_a
    = Returned (Some Build_RepoResponse, None) ∅
        [CallDeleteRepository "https://example.com/a.git"].
Proof.
  intros s ctx.
  destruct (single_call_handlers s ctx Fixture.store_a) as (HG & HU & HD).
  split; [|split].
  - apply (HG {| RepoQuery_Repo := "https://example.com/a.git" |}).
    reflexivity.
  - apply (HU {| RepoUpdateRequest_Repo := Some Fixture.repo_a_old |}
             Fixture.repo_a_old); reflexivity.
  - apply (HD {| RepoQuery_Repo := "https://example.com/a.git" |}).
    reflexivity.
Defined.
